(** * heimdall: the hystrix HTTP client (hystrix_client.go)

    A shallow embedding of [hystrixHTTPClient] and of its retry loop [do],
    together with the properties of the loop: how many attempts it makes,
    when it sleeps, what it returns and when it crashes.

    The Go code mutates three things while it runs: the accumulated
    [Response] ([hr]), the request object (its [Close] flag) and the outside
    world (the breaker is consulted, the transport is called, the goroutine
    sleeps).  The embedding threads a [state] holding the first two and a
    [trace] of the outside-world events through a small state-and-panic
    monad. *)

From Stdlib Require Import ZArith List String Bool Lia.
Import ListNotations.
Open Scope Z_scope.

(** ** Go's [int] *)

Module GoInt.

(** [int] on the 64-bit targets. *)
Definition bits : Z := 64.
Definition max_int : Z := 2 ^ (bits - 1) - 1.
Definition min_int : Z := - 2 ^ (bits - 1).

Definition in_range (z : Z) : Prop := min_int <= z <= max_int.

(** Two's complement wrap-around of a mathematical integer. *)
Definition wrap (z : Z) : Z := (z - min_int) mod 2 ^ bits + min_int.

(** [i++] *)
Definition incr (i : Z) : Z := wrap (i + 1).

End GoInt.

(** ** Data *)

(** [[]byte]; the nil slice and the empty slice are both the empty list. *)
Definition bytes := list Byte.byte.

Inductive error : Type :=
| ErrTransport (msg : string)            (* an error of [http.Client.Do] *)
| ErrRead (msg : string)                 (* an error of [ioutil.ReadAll] *)
| ErrURL (msg : string)                  (* an error of [http.NewRequest] *)
| ErrServerDown (code : Z)               (* fmt.Errorf("Server is down: ...") *)
| ErrCircuitOpen                         (* hystrix.ErrCircuitOpen *)
| ErrMaxConcurrency                      (* hystrix.ErrMaxConcurrency *)
| ErrFallbackFailed (fallbackErr runErr : error)
| ErrWrap (cause : error) (msg : string) (* errors.Wrap *).

(** [Response]: the client's own result type. *)
Record Response : Type := mkResponse { statusCode : Z; body : bytes }.

(** [Response{}] *)
Definition Response_zero : Response := {| statusCode := 0; body := [] |}.

(** What [ioutil.ReadAll] finds in a body: the bytes read, and an error when
    the read broke off. *)
Record Reader : Type := mkReader { rd_data : bytes; rd_err : option error }.

(** [*http.Response], reduced to the two fields [do] looks at.  [Body] is an
    interface value: [None] is the nil interface. *)
Record http_Response : Type :=
  mkHttpResponse { StatusCode : Z; Body : option Reader }.

(** [*http.Request].  [ReqBody] is the body the request was made with; how
    much of its reader an attempt has consumed is not followed. *)
Record http_Request : Type :=
  mkRequest { Method : string; URL : string; ReqBody : option bytes; Close : bool }.

(** [Retriable]: the retrier interface, one method. *)
Record Retriable : Type := mkRetriable { NextInterval : Z -> Z }.

(** [hystrixHTTPClient].  The [client] field is the transport of the outside
    world below; [hystrixCommandConfig] is not read by any method here. *)
Record hystrixHTTPClient : Type := mkClient {
  hystrixCommandName : string;
  retryCount : Z;
  retrier : Retriable
}.

Definition defaultHystrixRetryCount : Z := 0.

(** Modelled from the spec: [NewNoRetrier] is declared outside
    hystrix_client.go; "a no retry strategy returns 0 always". *)
Definition NewNoRetrier : Retriable := {| NextInterval := fun _ => 0 |}.

Definition NewHystrixHTTPClient : hystrixHTTPClient :=
  {| hystrixCommandName := "default";
     retryCount := defaultHystrixRetryCount;
     retrier := NewNoRetrier |}.

Definition SetRetryCount (hhc : hystrixHTTPClient) (count : Z) : hystrixHTTPClient :=
  {| hystrixCommandName := hystrixCommandName hhc;
     retryCount := count;
     retrier := retrier hhc |}.

Definition SetRetrier (hhc : hystrixHTTPClient) (r : Retriable) : hystrixHTTPClient :=
  {| hystrixCommandName := hystrixCommandName hhc;
     retryCount := retryCount hhc;
     retrier := r |}.

(** ** The outside world *)

(** The breaker's admission decision for one [hystrix.Do]. *)
Inductive admission : Type :=
| Allow
| Reject (e : error).

(** What the outside world answers at attempt [i] of one call: whether the
    breaker lets the unit of work run, what the transport returns when it
    runs, and whether a URL parses. *)
Record world : Type := mkWorld {
  breaker : Z -> admission;
  transport : Z -> error + http_Response;
  url_Parse : string -> option error
}.

(** What an observer outside the client sees happen. *)
Inductive event : Type :=
| EvSetClose                      (* request.Close = true *)
| EvHystrixDo (name : string)     (* hystrix.Do is entered *)
| EvClientDo (req : http_Request) (* client.Do(request), with the request as sent *)
| EvSleep (d : Z).                (* time.Sleep(d) *)

(** ** State and the monad *)

Record state : Type := mkState {
  hr : Response;
  request : http_Request;
  trace : list event
}.

Inductive result (A : Type) : Type :=
| Val (a : A) (s : state)
| Panic (s : state)
| OutOfFuel (s : state).
Arguments Val {A} a s.
Arguments Panic {A} s.
Arguments OutOfFuel {A} s.

Definition M (A : Type) : Type := state -> result A.

Definition ret {A} (a : A) : M A := fun s => Val a s.

Definition bind {A B} (m : M A) (k : A -> M B) : M B :=
  fun s => match m s with
           | Val a s' => k a s'
           | Panic s' => Panic s'
           | OutOfFuel s' => OutOfFuel s'
           end.

Notation "x <- m ;; k" := (bind m (fun x => k))
  (at level 61, m at next level, right associativity).
Notation "m ;; k" := (bind m (fun _ => k))
  (at level 61, right associativity).

Definition get_request : M http_Request := fun s => Val (request s) s.
Definition get_hr : M Response := fun s => Val (hr s) s.
Definition panic {A} : M A := fun s => Panic s.
Definition out_of_fuel {A} : M A := fun s => OutOfFuel s.

Definition emit (e : event) : M unit :=
  fun s => Val tt {| hr := hr s; request := request s; trace := trace s ++ [e] |}.

(** [hr.body = b] *)
Definition set_body (b : bytes) : M unit :=
  fun s => Val tt {| hr := {| statusCode := statusCode (hr s); body := b |};
                     request := request s; trace := trace s |}.

(** [hr.statusCode = c] *)
Definition set_statusCode (c : Z) : M unit :=
  fun s => Val tt {| hr := {| statusCode := c; body := body (hr s) |};
                     request := request s; trace := trace s |}.

(** [request.Close = true] *)
Definition set_Close : M unit :=
  fun s => Val tt {| hr := hr s;
                     request := {| Method := Method (request s); URL := URL (request s);
                                   ReqBody := ReqBody (request s); Close := true |};
                     trace := trace s ++ [EvSetClose] |}.

(** What the caller of a method ends up with: the two results when the
    method returns, a crash of the process when the unit of work panics, or
    neither within the steps allowed.  Each carries what was observed. *)
Inductive outcome : Type :=
| Returned (r : Response) (err : option error) (tr : list event)
| Panicked (tr : list event)
| Running (tr : list event).

Definition observe (r : result (Response * option error)) : outcome :=
  match r with
  | Val (resp, err) s => Returned resp err (trace s)
  | Panic s => Panicked (trace s)
  | OutOfFuel s => Running (trace s)
  end.

Definition events (o : outcome) : list event :=
  match o with
  | Returned _ _ tr | Panicked tr | Running tr => tr
  end.

(** The requests handed to the transport, in order. *)
Fixpoint calls (tr : list event) : list http_Request :=
  match tr with
  | [] => []
  | EvClientDo req :: tr' => req :: calls tr'
  | _ :: tr' => calls tr'
  end.

(** The durations slept, in order. *)
Fixpoint sleeps (tr : list event) : list Z :=
  match tr with
  | [] => []
  | EvSleep d :: tr' => d :: sleeps tr'
  | _ :: tr' => sleeps tr'
  end.

(** The number of times [hystrix.Do] was entered. *)
Fixpoint breaker_uses (tr : list event) : nat :=
  match tr with
  | [] => O
  | EvHystrixDo _ :: tr' => S (breaker_uses tr')
  | _ :: tr' => breaker_uses tr'
  end.

(** The number of writes of [request.Close]. *)
Fixpoint close_writes (tr : list event) : nat :=
  match tr with
  | [] => O
  | EvSetClose :: tr' => S (close_writes tr')
  | _ :: tr' => close_writes tr'
  end.

(** ** The calls into the libraries *)

Definition http_StatusInternalServerError : Z := 500.

(** [hhc.client.Do(request)] *)
Definition client_Do (w : world) (i : Z) (req : http_Request) : M (error + http_Response) :=
  emit (EvClientDo req) ;; ret (transport w i).

(** [response.Body.Close()]: a method call on an interface value, which
    panics on the nil interface. *)
Definition Body_Close (response : http_Response) : M unit :=
  match Body response with
  | Some _ => ret tt
  | None => panic
  end.

(** [time.Sleep(d)] *)
Definition time_Sleep (d : Z) : M unit := emit (EvSleep d).

(** [hystrix.Do(name, run, fallback)], the synchronous entry of hystrix-go.
    When the breaker rejects, [run] is not executed and the rejection goes to
    the fallback; when [run] fails, its error goes to the fallback.  A
    fallback that itself returns an error makes [Do] return a new error made
    of both; without a fallback the error is returned as it is.  A panic of
    [run] is not recovered.  The breaker's own timeout, under which [Do]
    returns while [run] is still executing, is outside this model. *)
Definition hystrix_Do (name : string) (adm : admission)
    (run : M (option error)) (fallback : option (error -> option error))
    : M (option error) :=
  emit (EvHystrixDo name) ;;
  r <- match adm with
       | Allow => run
       | Reject e => ret (Some e)
       end ;;
  match r with
  | None => ret None
  | Some e =>
      match fallback with
      | None => ret (Some e)
      | Some f =>
          match f e with
          | None => ret None
          | Some fe => ret (Some (ErrFallbackFailed fe e))
          end
      end
  end.

(** [http.NewRequest(method, url, body)]; the five methods used here are
    valid, so only the URL can make it fail. *)
Definition http_NewRequest (w : world) (method url : string) (b : option bytes)
    : error + http_Request :=
  match url_Parse w url with
  | Some e => inl e
  | None => inr {| Method := method; URL := url; ReqBody := b; Close := false |}
  end.

(** [errors.Wrap(err, msg)] on a non-nil error. *)
Definition errors_Wrap (err : error) (msg : string) : error := ErrWrap err msg.

(** ** The client *)

Section Client.

Variable w : world.
Variable hhc : hystrixHTTPClient.

(** The unit of work handed to [hystrix.Do] at attempt [i]. *)
Definition run (i : Z) : M (option error) :=
  req <- get_request ;;
  r <- client_Do w i req ;;
  match r with
  | inl err => ret (Some err)
  | inr response =>
      rerr <- match Body response with
              | Some rd => set_body (rd_data rd) ;; ret (rd_err rd)
              | None => ret None
              end ;;
      match rerr with
      | Some err => ret (Some err)
      | None =>
          Body_Close response ;;
          set_statusCode (StatusCode response) ;;
          if http_StatusInternalServerError <=? StatusCode response
          then ret (Some (ErrServerDown (StatusCode response)))
          else ret None
      end
  end.

(** The fallback handed to [hystrix.Do]: [func(err error) error { return err }]. *)
Definition fallback (err : error) : option error := Some err.

(** One [hystrix.Do] of the loop. *)
Definition attempt (i : Z) : M (option error) :=
  hystrix_Do (hystrixCommandName hhc) (breaker w i) (run i) (Some fallback).

(** [for i := 0; i <= hhc.retryCount; i++ { ... }], entered at [i]. *)
Fixpoint loop (fuel : nat) (i : Z) : M unit :=
  match fuel with
  | O => out_of_fuel
  | S fuel' =>
      if i <=? retryCount hhc then
        err <- attempt i ;;
        match err with
        | Some _ =>
            time_Sleep (NextInterval (retrier hhc) i) ;;
            loop fuel' (GoInt.incr i)          (* continue *)
        | None => ret tt                        (* break *)
        end
      else ret tt
  end.

Definition do_body (fuel : nat) : M (Response * option error) :=
  set_Close ;;
  loop fuel 0 ;;
  r <- get_hr ;;
  ret (r, None).

(** [hr := Response{}] and the caller's request, nothing observed yet. *)
Definition init (req : http_Request) : state :=
  {| hr := Response_zero; request := req; trace := [] |}.

Definition do (fuel : nat) (req : http_Request) : outcome :=
  observe (do_body fuel (init req)).

(** [Get] *)
Definition Get (fuel : nat) (url : string) : outcome :=
  let response := Response_zero in
  match http_NewRequest w "GET" url None with
  | inl err => Returned response (Some (errors_Wrap err "GET - request creation failed")) []
  | inr req => do fuel req
  end.

(** [Post] *)
Definition Post (fuel : nat) (url : string) (b : bytes) : outcome :=
  let response := Response_zero in
  match http_NewRequest w "POST" url (Some b) with
  | inl err => Returned response (Some (errors_Wrap err "POST - request creation failed")) []
  | inr req => do fuel req
  end.

(** [Put] *)
Definition Put (fuel : nat) (url : string) (b : bytes) : outcome :=
  let response := Response_zero in
  match http_NewRequest w "PUT" url (Some b) with
  | inl err => Returned response (Some (errors_Wrap err "PUT - request creation failed")) []
  | inr req => do fuel req
  end.

(** [Patch] *)
Definition Patch (fuel : nat) (url : string) (b : bytes) : outcome :=
  let response := Response_zero in
  match http_NewRequest w "PATCH" url (Some b) with
  | inl err => Returned response (Some (errors_Wrap err "PATCH - request creation failed")) []
  | inr req => do fuel req
  end.

(** [Delete] *)
Definition Delete (fuel : nat) (url : string) : outcome :=
  let response := Response_zero in
  match http_NewRequest w "DELETE" url None with
  | inl err => Returned response (Some (errors_Wrap err "DELETE - request creation failed")) []
  | inr req => do fuel req
  end.

End Client.

(** ** What one attempt does, read off the world *)

Inductive verdict : Type := Succeeds | Fails | Crashes.

(** The unit of work on what the transport returns. *)
Definition run_verdict (t : error + http_Response) : verdict :=
  match t with
  | inl _ => Fails
  | inr response =>
      match Body response with
      | None => Crashes
      | Some rd =>
          match rd_err rd with
          | Some _ => Fails
          | None =>
              if http_StatusInternalServerError <=? StatusCode response
              then Fails else Succeeds
          end
      end
  end.

Definition attempt_verdict (w : world) (i : Z) : verdict :=
  match breaker w i with
  | Reject _ => Fails
  | Allow => run_verdict (transport w i)
  end.

(** The unit of work is run and fails: the breaker lets the attempt through and
    the unit of work returns an error. *)
Definition work_fails (w : world) (i : Z) : Prop :=
  breaker w i = Allow /\ run_verdict (transport w i) = Fails.

(** [hr] after the unit of work has seen what the transport returned. *)
Definition hr_after_run (t : error + http_Response) (r : Response) : Response :=
  match t with
  | inl _ => r
  | inr response =>
      match Body response with
      | None => r
      | Some rd =>
          match rd_err rd with
          | Some _ => {| statusCode := statusCode r; body := rd_data rd |}
          | None => {| statusCode := StatusCode response; body := rd_data rd |}
          end
      end
  end.

Definition hr_after_attempt (w : world) (i : Z) (r : Response) : Response :=
  match breaker w i with
  | Reject _ => r
  | Allow => hr_after_run (transport w i) r
  end.

(** [hr] after the attempts [i], [i+1], ..., [i+n-1]. *)
Fixpoint hr_after_attempts (w : world) (n : nat) (i : Z) (r : Response) : Response :=
  match n with
  | O => r
  | S n' => hr_after_attempts w n' (i + 1) (hr_after_attempt w i r)
  end.

(** What attempt [i] shows to the outside. *)
Definition attempt_events (w : world) (name : string) (i : Z) (req : http_Request)
    : list event :=
  EvHystrixDo name ::
  match breaker w i with
  | Allow => [EvClientDo req]
  | Reject _ => []
  end.

(** [i], [i+1], ..., [i+n-1] *)
Fixpoint zseq (i : Z) (n : nat) : list Z :=
  match n with
  | O => []
  | S n' => i :: zseq (i + 1) n'
  end.

(** ** The states and traces of the loop *)

(** The state an attempt leaves behind, however it ends. *)
Definition after_attempt (w : world) (hhc : hystrixHTTPClient) (i : Z) (s : state)
    : state :=
  match attempt w hhc i s with
  | Val _ s' | Panic s' | OutOfFuel s' => s'
  end.

(** The state after a failed attempt and the sleep that follows it. *)
Definition after_failed (w : world) (hhc : hystrixHTTPClient) (i : Z) (s : state)
    : state :=
  let s' := after_attempt w hhc i s in
  {| hr := hr s'; request := request s';
     trace := trace s' ++ [EvSleep (NextInterval (retrier hhc) i)] |}.

Fixpoint after_failures (w : world) (hhc : hystrixHTTPClient) (n : nat) (i : Z)
    (s : state) : state :=
  match n with
  | O => s
  | S n' => after_failures w hhc n' (i + 1) (after_failed w hhc i s)
  end.

(** What [n] failed attempts from [i] on show to the outside: each one its
    own events and then the sleep. *)
Fixpoint failures_events (w : world) (hhc : hystrixHTTPClient) (n : nat) (i : Z)
    (req : http_Request) : list event :=
  match n with
  | O => []
  | S n' =>
      attempt_events w (hystrixCommandName hhc) i req
      ++ EvSleep (NextInterval (retrier hhc) i) :: failures_events w hhc n' (i + 1) req
  end.

(** The request once [do] has marked it. *)
Definition closed (req : http_Request) : http_Request :=
  {| Method := Method req; URL := URL req; ReqBody := ReqBody req; Close := true |}.

(** The state in which the loop is entered. *)
Definition start (req : http_Request) : state :=
  {| hr := Response_zero; request := closed req; trace := [EvSetClose] |}.

(** The state in which a computation ends, however it ends. *)
Definition final {A : Type} (r : result A) : state :=
  match r with
  | Val _ s | Panic s | OutOfFuel s => s
  end.

(** An attempt that brings no response: the breaker rejects it or the
    transport fails. *)
Definition no_response (w : world) (j : Z) : Prop :=
  (exists e, breaker w j = Reject e) \/ (exists e, transport w j = inl e).

(** The five verbs on one URL and one body. *)
Definition verbs (w : world) (hhc : hystrixHTTPClient) (fuel : nat)
    (url : string) (b : bytes) : list outcome :=
  [ Get w hhc fuel url; Post w hhc fuel url b; Put w hhc fuel url b;
    Patch w hhc fuel url b; Delete w hhc fuel url ].

(** ** Worlds and requests to run the client on *)

Module Examples.

(** A URL parser that refuses what starts with a colon ("missing protocol
    scheme"). *)
Definition parser (u : string) : option error :=
  if String.prefix ":" u then Some (ErrURL "missing protocol scheme") else None.

Definition ok_body : bytes := [Byte.x6f; Byte.x6b].
Definition oops_body : bytes := [Byte.x6f; Byte.x6f; Byte.x70; Byte.x73].

(** Every connection is refused. *)
Definition refused : world :=
  {| breaker := fun _ => Allow;
     transport := fun _ => inl (ErrTransport "connection refused");
     url_Parse := parser |}.

(** The server answers 503 every time. *)
Definition down : world :=
  {| breaker := fun _ => Allow;
     transport := fun _ =>
       inr {| StatusCode := 503;
              Body := Some {| rd_data := oops_body; rd_err := None |} |};
     url_Parse := parser |}.

(** The circuit is open. *)
Definition open_circuit : world :=
  {| breaker := fun _ => Reject ErrCircuitOpen;
     transport := fun _ => inl (ErrTransport "connection refused");
     url_Parse := parser |}.

(** The server answers 503 once and is unreachable from then on. *)
Definition down_then_refused : world :=
  {| breaker := fun _ => Allow;
     transport := fun i =>
       if i =? 0
       then inr {| StatusCode := 503;
                   Body := Some {| rd_data := oops_body; rd_err := None |} |}
       else inl (ErrTransport "connection refused");
     url_Parse := parser |}.

(** The server is unreachable before attempt [k] and answers 200 from it on. *)
Definition up_from (k : Z) : world :=
  {| breaker := fun _ => Allow;
     transport := fun i =>
       if i <? k
       then inl (ErrTransport "connection refused")
       else inr {| StatusCode := 200;
                   Body := Some {| rd_data := ok_body; rd_err := None |} |};
     url_Parse := parser |}.

Definition a_request : http_Request :=
  {| Method := "GET"; URL := "http://localhost/"; ReqBody := None; Close := false |}.

(** Modelled from the spec: the constant backoff is declared outside
    hystrix_client.go; its interval is the same at every attempt. *)
Definition constant_backoff (d : Z) : Retriable :=
  {| NextInterval := fun _ => d |}.

End Examples.

(** ** Behind [http.Client] *)




(** The first element of a list, if there is one, is [x]. *)
Definition first_is {A : Type} (x : A) (l : list A) : Prop :=
  match l with
  | [] => True
  | y :: _ => y = x
  end.

(** ** More to observe in a trace *)

(** The command names under which [hystrix.Do] was entered, in order. *)
Fixpoint breaker_names (tr : list event) : list string :=
  match tr with
  | [] => []
  | EvHystrixDo name :: tr' => name :: breaker_names tr'
  | _ :: tr' => breaker_names tr'
  end.

(** A trace without its sleeps. *)
Fixpoint awake (tr : list event) : list event :=
  match tr with
  | [] => []
  | EvSleep _ :: tr' => awake tr'
  | e :: tr' => e :: awake tr'
  end.

(** An outcome with the sleeps taken out of what was observed. *)
Definition without_sleeps (o : outcome) : outcome :=
  match o with
  | Returned r err tr => Returned r err (awake tr)
  | Panicked tr => Panicked (awake tr)
  | Running tr => Running (awake tr)
  end.

(** Whether the breaker lets attempt [i] through. *)
Definition allowed (w : world) (i : Z) : bool :=
  match breaker w i with
  | Allow => true
  | Reject _ => false
  end.

(** Two states that differ at most in the sleeps observed. *)
Definition same_but_sleeps (s s' : state) : Prop :=
  hr s = hr s' /\ request s = request s' /\ awake (trace s) = awake (trace s').

(** The clients a caller can have: the one [NewHystrixHTTPClient] makes, and
    what the two setters make of it. *)
Inductive configured : hystrixHTTPClient -> Prop :=
| configured_new : configured NewHystrixHTTPClient
| configured_count (c : hystrixHTTPClient) (n : Z) :
    configured c -> configured (SetRetryCount c n)
| configured_retrier (c : hystrixHTTPClient) (r : Retriable) :
    configured c -> configured (SetRetrier c r).

(** More worlds. *)
Module Scenarios.

(** The server answers 503 at the first attempt; at every later one it
    answers 200 and the connection breaks while the body is read. *)
Definition down_then_broken_read : world :=
  {| breaker := fun _ => Allow;
     transport := fun i =>
       if i =? 0
       then inr {| StatusCode := 503;
                   Body := Some {| rd_data := Examples.oops_body; rd_err := None |} |}
       else inr {| StatusCode := 200;
                   Body := Some {| rd_data := [Byte.x6f];
                                   rd_err := Some (ErrRead "unexpected EOF") |} |};
     url_Parse := Examples.parser |}.

(** The breaker rejects the first attempt and lets the later ones through to
    a server that answers 200. *)
Definition rejected_then_up : world :=
  {| breaker := fun i => if i =? 0 then Reject ErrMaxConcurrency else Allow;
     transport := fun _ =>
       inr {| StatusCode := 200;
              Body := Some {| rd_data := Examples.ok_body; rd_err := None |} |};
     url_Parse := Examples.parser |}.

(** A backoff that grows with the attempt index. *)
Definition linear_backoff (d : Z) : Retriable :=
  {| NextInterval := fun i => d * (i + 1) |}.

End Scenarios.

(** ** Lemmas on [int] *)

Lemma incr_no_wrap (i : Z) :
  GoInt.min_int <= i < GoInt.max_int -> GoInt.incr i = i + 1.
Proof.
  unfold GoInt.incr, GoInt.wrap, GoInt.min_int, GoInt.max_int, GoInt.bits.
  intros H. rewrite Z.mod_small; lia.
Qed.

Lemma wrap_in_range (z : Z) : GoInt.in_range (GoInt.wrap z).
Proof.
  unfold GoInt.in_range, GoInt.wrap, GoInt.min_int, GoInt.max_int, GoInt.bits.
  pose proof (Z.mod_pos_bound (z - - 2 ^ (64 - 1)) (2 ^ 64) ltac:(lia)). lia.
Qed.

(** ** Lemmas on traces *)

Lemma calls_app (a b : list event) : calls (a ++ b) = calls a ++ calls b.
Proof.
  induction a as [|e a IH]; simpl; [reflexivity|].
  destruct e; simpl; rewrite IH; reflexivity.
Qed.

Lemma sleeps_app (a b : list event) : sleeps (a ++ b) = sleeps a ++ sleeps b.
Proof.
  induction a as [|e a IH]; simpl; [reflexivity|].
  destruct e; simpl; rewrite IH; reflexivity.
Qed.

Lemma breaker_uses_app (a b : list event) :
  breaker_uses (a ++ b) = (breaker_uses a + breaker_uses b)%nat.
Proof.
  induction a as [|e a IH]; simpl; [reflexivity|].
  destruct e; simpl; rewrite IH; reflexivity.
Qed.

Lemma close_writes_app (a b : list event) :
  close_writes (a ++ b) = (close_writes a + close_writes b)%nat.
Proof.
  induction a as [|e a IH]; simpl; [reflexivity|].
  destruct e; simpl; rewrite IH; reflexivity.
Qed.

Lemma last_two {A : Type} (l : list A) (x y d : A) : last (l ++ [x; y]) d = y.
Proof.
  change [x; y] with ([x] ++ [y]). rewrite app_assoc. apply last_last.
Qed.

Lemma zseq_length (n : nat) : forall i, List.length (zseq i n) = n.
Proof. induction n as [|n IH]; intros i; simpl; [|rewrite IH]; reflexivity. Qed.

Lemma hr_after_attempts_last (w : world) (n : nat) : forall i r,
  hr_after_attempts w (S n) i r
  = hr_after_attempt w (i + Z.of_nat n) (hr_after_attempts w n i r).
Proof.
  induction n as [|n IH]; intros i r.
  - simpl. rewrite Z.add_0_r. reflexivity.
  - change (hr_after_attempts w (S (S n)) i r)
      with (hr_after_attempts w (S n) (i + 1) (hr_after_attempt w i r)).
    rewrite IH. simpl hr_after_attempts. f_equal. lia.
Qed.

(** ** One attempt *)

Section Attempt.

Variable w : world.
Variable hhc : hystrixHTTPClient.

Ltac run_attempt :=
  unfold after_attempt, attempt, hystrix_Do, run, client_Do, Body_Close,
    attempt_verdict, run_verdict, hr_after_attempt, hr_after_run,
    attempt_events, fallback, bind, ret, emit, get_request, set_body,
    set_statusCode, panic; simpl.

Lemma attempt_Fails (i : Z) (s : state) :
  attempt_verdict w i = Fails ->
  exists e, attempt w hhc i s = Val (Some e) (after_attempt w hhc i s).
Proof.
  run_attempt.
  destruct (breaker w i); simpl; [|eexists; reflexivity].
  destruct (transport w i) as [e|response]; simpl; [eexists; reflexivity|].
  destruct (Body response) as [rd|]; simpl; [|discriminate].
  destruct (rd_err rd); simpl; [eexists; reflexivity|].
  destruct (_ <=? _); simpl; [eexists; reflexivity|discriminate].
Qed.

Lemma attempt_Succeeds (i : Z) (s : state) :
  attempt_verdict w i = Succeeds ->
  attempt w hhc i s = Val None (after_attempt w hhc i s).
Proof.
  run_attempt.
  destruct (breaker w i); simpl; [|discriminate].
  destruct (transport w i) as [e|response]; simpl; [discriminate|].
  destruct (Body response) as [rd|]; simpl; [|discriminate].
  destruct (rd_err rd); simpl; [discriminate|].
  destruct (_ <=? _); simpl; [discriminate|reflexivity].
Qed.

Lemma attempt_Crashes (i : Z) (s : state) :
  attempt_verdict w i = Crashes ->
  attempt w hhc i s = Panic (after_attempt w hhc i s).
Proof.
  run_attempt.
  destruct (breaker w i); simpl; [|discriminate].
  destruct (transport w i) as [e|response]; simpl; [discriminate|].
  destruct (Body response) as [rd|]; simpl; [|reflexivity].
  destruct (rd_err rd); simpl; [discriminate|].
  destruct (_ <=? _); simpl; discriminate.
Qed.

Lemma after_attempt_request (i : Z) (s : state) :
  request (after_attempt w hhc i s) = request s.
Proof.
  run_attempt.
  destruct (breaker w i); simpl; [|reflexivity].
  destruct (transport w i) as [e|response]; simpl; [reflexivity|].
  destruct (Body response) as [rd|]; simpl; [|reflexivity].
  destruct (rd_err rd); simpl; [reflexivity|].
  destruct (_ <=? _); reflexivity.
Qed.

Lemma after_attempt_trace (i : Z) (s : state) :
  trace (after_attempt w hhc i s) =
  trace s ++ attempt_events w (hystrixCommandName hhc) i (request s).
Proof.
  run_attempt.
  destruct (breaker w i); simpl; [|reflexivity].
  destruct (transport w i) as [e|response]; simpl;
    [rewrite <- app_assoc; reflexivity|].
  destruct (Body response) as [rd|]; simpl;
    [|rewrite <- app_assoc; reflexivity].
  destruct (rd_err rd); simpl; [rewrite <- app_assoc; reflexivity|].
  destruct (_ <=? _); simpl; rewrite <- app_assoc; reflexivity.
Qed.

Lemma after_attempt_hr (i : Z) (s : state) :
  hr (after_attempt w hhc i s) = hr_after_attempt w i (hr s).
Proof.
  run_attempt.
  destruct (breaker w i); simpl; [|reflexivity].
  destruct (transport w i) as [e|response]; simpl; [reflexivity|].
  destruct (Body response) as [rd|]; simpl; [|reflexivity].
  destruct (rd_err rd); simpl; [reflexivity|].
  destruct (_ <=? _); reflexivity.
Qed.

End Attempt.


(** ** The loop *)

Section Loop.

Variable w : world.
Variable hhc : hystrixHTTPClient.

Lemma loop_exit (fuel : nat) (i : Z) (s : state) :
  retryCount hhc < i -> loop w hhc (S fuel) i s = Val tt s.
Proof.
  intros H. simpl. destruct (Z.leb_spec i (retryCount hhc)); [lia|reflexivity].
Qed.

Lemma loop_Fails (fuel : nat) (i : Z) (s : state) :
  i <= retryCount hhc -> attempt_verdict w i = Fails ->
  loop w hhc (S fuel) i s = loop w hhc fuel (GoInt.incr i) (after_failed w hhc i s).
Proof.
  intros Hi Hv. simpl. destruct (Z.leb_spec i (retryCount hhc)); [|lia].
  destruct (attempt_Fails w hhc i s Hv) as [e He].
  unfold bind at 1. rewrite He. reflexivity.
Qed.

Lemma loop_Succeeds (fuel : nat) (i : Z) (s : state) :
  i <= retryCount hhc -> attempt_verdict w i = Succeeds ->
  loop w hhc (S fuel) i s = Val tt (after_attempt w hhc i s).
Proof.
  intros Hi Hv. simpl. destruct (Z.leb_spec i (retryCount hhc)); [|lia].
  unfold bind at 1. rewrite (attempt_Succeeds w hhc i s Hv). reflexivity.
Qed.

Lemma loop_Crashes (fuel : nat) (i : Z) (s : state) :
  i <= retryCount hhc -> attempt_verdict w i = Crashes ->
  loop w hhc (S fuel) i s = Panic (after_attempt w hhc i s).
Proof.
  intros Hi Hv. simpl. destruct (Z.leb_spec i (retryCount hhc)); [|lia].
  unfold bind at 1. rewrite (attempt_Crashes w hhc i s Hv). reflexivity.
Qed.

(** [n] failing attempts in a row take the loop from [i] to [i + n]. *)
Lemma loop_failures (n : nat) : forall (fuel : nat) (i : Z) (s : state),
  GoInt.min_int <= i ->
  i + Z.of_nat n <= GoInt.max_int ->
  i + Z.of_nat n <= retryCount hhc + 1 ->
  (forall j, i <= j < i + Z.of_nat n -> attempt_verdict w j = Fails) ->
  loop w hhc (n + fuel) i s
  = loop w hhc fuel (i + Z.of_nat n) (after_failures w hhc n i s).
Proof.
  induction n as [|n IH]; intros fuel i s Hlo Hhi HN Hall.
  - simpl. rewrite Z.add_0_r. reflexivity.
  - change (S n + fuel)%nat with (S (n + fuel)).
    rewrite loop_Fails by (try apply Hall; lia).
    rewrite incr_no_wrap by lia.
    rewrite IH by (try (intros j Hj; apply Hall); lia).
    simpl after_failures. f_equal. lia.
Qed.

Lemma after_failures_request (n : nat) : forall i s,
  request (after_failures w hhc n i s) = request s.
Proof.
  induction n as [|n IH]; intros i s; simpl; [reflexivity|].
  rewrite IH. simpl. apply after_attempt_request.
Qed.

Lemma after_failures_hr (n : nat) : forall i s,
  hr (after_failures w hhc n i s) = hr_after_attempts w n i (hr s).
Proof.
  induction n as [|n IH]; intros i s; simpl; [reflexivity|].
  rewrite IH. simpl. rewrite after_attempt_hr. reflexivity.
Qed.

Lemma after_failures_trace (n : nat) : forall i s,
  trace (after_failures w hhc n i s)
  = trace s ++ failures_events w hhc n i (request s).
Proof.
  induction n as [|n IH]; intros i s; simpl.
  - rewrite app_nil_r. reflexivity.
  - rewrite IH. simpl. rewrite after_attempt_request, after_attempt_trace.
    rewrite <- !app_assoc. reflexivity.
Qed.

Lemma failures_events_sleeps (n : nat) : forall i req,
  sleeps (failures_events w hhc n i req) = map (NextInterval (retrier hhc)) (zseq i n).
Proof.
  induction n as [|n IH]; intros i req; simpl; [reflexivity|].
  unfold attempt_events. destruct (breaker w i); simpl; rewrite IH; reflexivity.
Qed.

Lemma failures_events_breaker_uses (n : nat) : forall i req,
  breaker_uses (failures_events w hhc n i req) = n.
Proof.
  induction n as [|n IH]; intros i req; simpl; [reflexivity|].
  unfold attempt_events. destruct (breaker w i); simpl; rewrite IH; reflexivity.
Qed.

Lemma failures_events_close_writes (n : nat) : forall i req,
  close_writes (failures_events w hhc n i req) = O.
Proof.
  induction n as [|n IH]; intros i req; simpl; [reflexivity|].
  unfold attempt_events. destruct (breaker w i); simpl; rewrite IH; reflexivity.
Qed.

(** The requests sent are all the one request of the call. *)
Lemma failures_events_calls_In (n : nat) : forall i req r,
  In r (calls (failures_events w hhc n i req)) -> r = req.
Proof.
  induction n as [|n IH]; intros i req r; simpl; [tauto|].
  unfold attempt_events. destruct (breaker w i); simpl.
  - intros [H|H]; [congruence|eauto].
  - eauto.
Qed.

Lemma failures_events_calls_allowed (n : nat) : forall i req,
  (forall j, i <= j < i + Z.of_nat n -> breaker w j = Allow) ->
  calls (failures_events w hhc n i req) = repeat req n.
Proof.
  induction n as [|n IH]; intros i req Hall; simpl; [reflexivity|].
  unfold attempt_events. rewrite Hall by lia. simpl.
  rewrite IH; [reflexivity|]. intros j Hj. apply Hall. lia.
Qed.

Lemma failures_events_calls_rejected (n : nat) : forall i req,
  (forall j, i <= j < i + Z.of_nat n -> exists e, breaker w j = Reject e) ->
  calls (failures_events w hhc n i req) = [].
Proof.
  induction n as [|n IH]; intros i req Hall; simpl; [reflexivity|].
  unfold attempt_events. destruct (Hall i ltac:(lia)) as [e ->]. simpl.
  apply IH. intros j Hj. apply Hall. lia.
Qed.

Lemma do_loop (fuel : nat) (req : http_Request) :
  do w hhc fuel req
  = match loop w hhc fuel 0 (start req) with
    | Val _ s => Returned (hr s) None (trace s)
    | Panic s => Panicked (trace s)
    | OutOfFuel s => Running (trace s)
    end.
Proof.
  unfold do, do_body, bind, set_Close, get_hr, ret, init. simpl.
  fold (closed req). fold (start req).
  destruct (loop w hhc fuel 0 (start req)); reflexivity.
Qed.

Lemma min_int_le_0 : GoInt.min_int <= 0.
Proof. unfold GoInt.min_int, GoInt.bits. lia. Qed.

(** Every attempt up to [retryCount] fails: the loop runs out of attempts. *)
Lemma do_exhausted (fuel : nat) (req : http_Request) (n : nat) :
  Z.of_nat n = retryCount hhc + 1 ->
  retryCount hhc < GoInt.max_int ->
  (forall j, 0 <= j <= retryCount hhc -> attempt_verdict w j = Fails) ->
  (n < fuel)%nat ->
  do w hhc fuel req
  = Returned (hr_after_attempts w n 0 Response_zero) None
             (EvSetClose :: failures_events w hhc n 0 (closed req)).
Proof.
  intros Hn Hmax Hall Hfuel. rewrite do_loop.
  replace fuel with (n + S (fuel - n - 1))%nat by lia.
  pose proof min_int_le_0.
  rewrite loop_failures by (try (intros j Hj; apply Hall); lia).
  rewrite loop_exit by lia.
  rewrite after_failures_hr, after_failures_trace. reflexivity.
Qed.

(** Attempt [k] is the first that does not fail, and it succeeds. *)
Lemma do_first_success (fuel : nat) (req : http_Request) (k : nat) :
  Z.of_nat k <= retryCount hhc ->
  Z.of_nat k <= GoInt.max_int ->
  (forall j, 0 <= j < Z.of_nat k -> attempt_verdict w j = Fails) ->
  attempt_verdict w (Z.of_nat k) = Succeeds ->
  (k < fuel)%nat ->
  do w hhc fuel req
  = Returned (hr_after_attempts w (S k) 0 Response_zero) None
             (EvSetClose :: failures_events w hhc k 0 (closed req)
              ++ attempt_events w (hystrixCommandName hhc) (Z.of_nat k) (closed req)).
Proof.
  intros Hk Hmax Hall Hsucc Hfuel. rewrite do_loop.
  replace fuel with (k + S (fuel - k - 1))%nat by lia.
  pose proof min_int_le_0.
  rewrite loop_failures by (try (intros j Hj; apply Hall); lia).
  rewrite loop_Succeeds by (simpl; auto; lia).
  rewrite after_attempt_hr, after_attempt_trace, after_failures_request,
    after_failures_hr, after_failures_trace, hr_after_attempts_last.
  simpl. rewrite <- ?app_assoc. reflexivity.
Qed.

(** Attempt [k] is the first that does not fail, and it crashes. *)
Lemma do_first_crash (fuel : nat) (req : http_Request) (k : nat) :
  Z.of_nat k <= retryCount hhc ->
  Z.of_nat k <= GoInt.max_int ->
  (forall j, 0 <= j < Z.of_nat k -> attempt_verdict w j = Fails) ->
  attempt_verdict w (Z.of_nat k) = Crashes ->
  (k < fuel)%nat ->
  do w hhc fuel req
  = Panicked (EvSetClose :: failures_events w hhc k 0 (closed req)
              ++ attempt_events w (hystrixCommandName hhc) (Z.of_nat k) (closed req)).
Proof.
  intros Hk Hmax Hall Hcrash Hfuel. rewrite do_loop.
  replace fuel with (k + S (fuel - k - 1))%nat by lia.
  pose proof min_int_le_0.
  rewrite loop_failures by (try (intros j Hj; apply Hall); lia).
  rewrite loop_Crashes by (simpl; auto; lia).
  rewrite after_attempt_trace, after_failures_request, after_failures_trace.
  simpl. rewrite <- ?app_assoc. reflexivity.
Qed.

End Loop.

(** ** What holds of every run of the loop *)

Section Invariant.

Variable w : world.
Variable hhc : hystrixHTTPClient.

(** An attempt ends in one of three ways, each in the state [after_attempt]. *)
Lemma attempt_cases (i : Z) (s : state) :
  (exists e, attempt w hhc i s = Val (Some e) (after_attempt w hhc i s))
  \/ attempt w hhc i s = Val None (after_attempt w hhc i s)
  \/ attempt w hhc i s = Panic (after_attempt w hhc i s).
Proof.
  destruct (attempt_verdict w i) eqn:Hv.
  - right; left. apply attempt_Succeeds; assumption.
  - left. apply attempt_Fails; assumption.
  - right; right. apply attempt_Crashes; assumption.
Qed.

(** One turn of the loop. *)
Lemma loop_step (fuel : nat) (i : Z) (s : state) :
  loop w hhc (S fuel) i s
  = if i <=? retryCount hhc then
      match attempt w hhc i s with
      | Val (Some _) s' =>
          loop w hhc fuel (GoInt.incr i)
            {| hr := hr s'; request := request s';
               trace := trace s' ++ [EvSleep (NextInterval (retrier hhc) i)] |}
      | Val None s' => Val tt s'
      | Panic s' => Panic s'
      | OutOfFuel s' => OutOfFuel s'
      end
    else Val tt s.
Proof.
  simpl. destruct (i <=? retryCount hhc); [|reflexivity].
  unfold bind at 1. destruct (attempt w hhc i s) as [[e|] s'|s'|s']; reflexivity.
Qed.

(** The loop leaves the request as it found it and writes [Close] never;
    every request it sends is the one it found. *)
Lemma loop_frame (fuel : nat) : forall (i : Z) (s : state),
  exists ev,
    trace (final (loop w hhc fuel i s)) = trace s ++ ev
    /\ request (final (loop w hhc fuel i s)) = request s
    /\ close_writes ev = O
    /\ forall r, In r (calls ev) -> r = request s.
Proof.
  induction fuel as [|fuel IH]; intros i s.
  - exists []. simpl. rewrite app_nil_r. repeat split. intros r [].
  - rewrite loop_step. destruct (i <=? retryCount hhc).
    2:{ exists []. simpl. rewrite app_nil_r. repeat split. intros r []. }
    assert (Hev : forall r,
      In r (calls (attempt_events w (hystrixCommandName hhc) i (request s))) ->
      r = request s).
    { unfold attempt_events. destruct (breaker w i); simpl; intuition congruence. }
    assert (Hcw :
      close_writes (attempt_events w (hystrixCommandName hhc) i (request s)) = O).
    { unfold attempt_events. destruct (breaker w i); reflexivity. }
    destruct (attempt_cases i s) as [[e ->]|[->| ->]].
    + pose proof (after_attempt_request w hhc i s) as Hq.
      pose proof (after_attempt_trace w hhc i s) as Htq.
      set (s1 := after_attempt w hhc i s) in *. clearbody s1.
      match goal with |- context [loop w hhc fuel ?j ?t] =>
        destruct (IH j t) as (ev & Ht & Hr & Hc & Hin) end.
      simpl in Ht, Hr, Hin.
      exists (attempt_events w (hystrixCommandName hhc) i (request s)
              ++ EvSleep (NextInterval (retrier hhc) i) :: ev).
      repeat split.
      * rewrite Ht, Htq. rewrite <- !app_assoc. reflexivity.
      * rewrite Hr. exact Hq.
      * rewrite close_writes_app, Hcw. simpl. exact Hc.
      * intros r. rewrite calls_app, in_app_iff. simpl.
        intros [H|H]; [auto|rewrite <- Hq; auto].
    + exists (attempt_events w (hystrixCommandName hhc) i (request s)). simpl.
      rewrite after_attempt_trace, after_attempt_request. auto.
    + exists (attempt_events w (hystrixCommandName hhc) i (request s)). simpl.
      rewrite after_attempt_trace, after_attempt_request. auto.
Qed.


(** [do] never hands an error to its caller. *)
Lemma do_error_nil (fuel : nat) (req : http_Request) r e tr :
  do w hhc fuel req = Returned r e tr -> e = None.
Proof.
  rewrite do_loop. destruct (loop w hhc fuel 0 (start req)); congruence.
Qed.

End Invariant.

Lemma hr_after_attempts_app (w : world) (a : nat) : forall (b : nat) i r,
  hr_after_attempts w (a + b) i r
  = hr_after_attempts w b (i + Z.of_nat a) (hr_after_attempts w a i r).
Proof.
  induction a as [|a IH]; intros b i r.
  - simpl. rewrite Z.add_0_r. reflexivity.
  - change (S a + b)%nat with (S (a + b)). simpl hr_after_attempts.
    rewrite IH. f_equal. lia.
Qed.

Lemma hr_after_attempts_no_response (w : world) (n : nat) : forall i r,
  (forall j, i <= j < i + Z.of_nat n -> no_response w j) ->
  hr_after_attempts w n i r = r.
Proof.
  induction n as [|n IH]; intros i r Hall; simpl; [reflexivity|].
  rewrite IH by (intros j Hj; apply Hall; lia).
  unfold hr_after_attempt, hr_after_run.
  destruct (Hall i ltac:(lia)) as [[e ->]|[e He]]; [reflexivity|].
  rewrite He. destruct (breaker w i); reflexivity.
Qed.

(** ** The verbs *)

(** Each verb is [do] on a request of its own making. *)
Lemma verbs_do (w : world) (hhc : hystrixHTTPClient) (fuel : nat)
    (url : string) (b : bytes) :
  url_Parse w url = None ->
  Forall (fun o => exists req, o = do w hhc fuel req) (verbs w hhc fuel url b).
Proof.
  intros Hurl. unfold verbs, Get, Post, Put, Patch, Delete, http_NewRequest.
  rewrite Hurl. repeat constructor; eexists; reflexivity.
Qed.

(** ** No panic without a nil [Body] *)




(** ** The properties *)

Lemma work_fails_verdict (w : world) (j : Z) :
  work_fails w j -> attempt_verdict w j = Fails.
Proof. intros [Ha Hr]. unfold attempt_verdict. rewrite Ha. exact Hr. Qed.

(** With [retryCount] at the largest [int] the loop condition never turns
    false, and a loop whose attempts all fail runs for ever. *)
Lemma loop_max_int_spins (w : world) (hhc : hystrixHTTPClient) :
  retryCount hhc = GoInt.max_int ->
  (forall j, attempt_verdict w j = Fails) ->
  forall fuel i s, GoInt.in_range i ->
  exists s', loop w hhc fuel i s = OutOfFuel s'.
Proof.
  intros HN Hall fuel.
  induction fuel as [|fuel IH]; intros i s Hi.
  - eexists; reflexivity.
  - rewrite loop_Fails by (try apply Hall; rewrite HN; apply Hi).
    apply IH. apply wrap_in_range.
Qed.

(** C1, as stated, at [retryCount = MaxInt64]: with every connection refused
    [do] makes attempt after attempt and does not return, however many steps
    it is given. *)
Lemma do_max_int_never_returns :
  ~ exists fuel r err tr,
      do Examples.refused (SetRetryCount NewHystrixHTTPClient GoInt.max_int)
         fuel Examples.a_request
      = Returned r err tr.
Proof.
  intros (fuel & r & err & tr & H). rewrite do_loop in H.
  destruct (loop_max_int_spins Examples.refused
              (SetRetryCount NewHystrixHTTPClient GoInt.max_int)
              eq_refl (fun _ => eq_refl) fuel 0 (start Examples.a_request))
    as [s' Hs'].
  - unfold GoInt.in_range, GoInt.min_int, GoInt.max_int, GoInt.bits. lia.
  - rewrite Hs' in H. discriminate.
Qed.

(** C1 (amended): for every retry count [0 <= N < MaxInt64] set through
    [SetRetryCount] and a unit of work that is run and fails at every attempt,
    [do] returns, and by then it has called the transport exactly [N + 1]
    times, once in each of [N + 1] uses of the breaker. *)
Theorem do_failing_makes_N_plus_1_attempts
    (w : world) (hhc : hystrixHTTPClient) (N : Z) (req : http_Request) (fuel : nat) :
  0 <= N < GoInt.max_int ->
  (forall j, 0 <= j <= N -> work_fails w j) ->
  (Z.to_nat N + 1 < fuel)%nat ->
  exists r tr,
    do w (SetRetryCount hhc N) fuel req = Returned r None tr
    /\ Z.of_nat (List.length (calls tr)) = N + 1
    /\ Z.of_nat (breaker_uses tr) = N + 1.
Proof.
  intros HN Hall Hfuel.
  rewrite (do_exhausted w (SetRetryCount hhc N) fuel req (Z.to_nat (N + 1)));
    simpl retryCount; try lia.
  2:{ intros j Hj. apply work_fails_verdict, Hall, Hj. }
  do 2 eexists. split; [reflexivity|]. simpl.
  rewrite failures_events_breaker_uses.
  rewrite failures_events_calls_allowed, repeat_length; [lia|].
  intros j Hj. apply Hall. lia.
Qed.

Lemma do_failing_makes_N_plus_1_attempts_witness :
  exists r tr,
    do Examples.down (SetRetryCount NewHystrixHTTPClient 3) 6 Examples.a_request
    = Returned r None tr
    /\ Z.of_nat (List.length (calls tr)) = 3 + 1
    /\ Z.of_nat (breaker_uses tr) = 3 + 1.
Proof.
  apply (do_failing_makes_N_plus_1_attempts
           Examples.down NewHystrixHTTPClient 3 Examples.a_request 6).
  - unfold GoInt.max_int, GoInt.bits. lia.
  - intros j _. split; reflexivity.
  - simpl. lia.
Defined.

(** C2: when every attempt up to [retryCount] has failed, [do] returns the
    accumulated [Response] and a nil error.  That [Response] is the empty one
    when no attempt brought a response, and carries the status and body of the
    last attempt when that one was answered (with a 5xx, since it failed). *)
Theorem do_exhausted_returns_nil_error
    (w : world) (hhc : hystrixHTTPClient) (req : http_Request) (fuel : nat) :
  0 <= retryCount hhc < GoInt.max_int ->
  (forall j, 0 <= j <= retryCount hhc -> attempt_verdict w j = Fails) ->
  (Z.to_nat (retryCount hhc) + 1 < fuel)%nat ->
  exists r tr,
    do w hhc fuel req = Returned r None tr
    /\ r = hr_after_attempts w (Z.to_nat (retryCount hhc + 1)) 0 Response_zero
    /\ ((forall j, 0 <= j <= retryCount hhc -> no_response w j) ->
        r = Response_zero)
    /\ (forall response rd,
          breaker w (retryCount hhc) = Allow ->
          transport w (retryCount hhc) = inr response ->
          Body response = Some rd -> rd_err rd = None ->
          r = {| statusCode := StatusCode response; body := rd_data rd |}
          /\ http_StatusInternalServerError <= StatusCode response).
Proof.
  intros HN Hall Hfuel.
  rewrite (do_exhausted w hhc fuel req (Z.to_nat (retryCount hhc + 1)))
    by (auto; lia).
  do 2 eexists. split; [reflexivity|]. split; [reflexivity|]. split.
  - intros Hno. apply hr_after_attempts_no_response.
    intros j Hj. apply Hno. lia.
  - intros response rd Ha Ht Hb Hr.
    replace (Z.to_nat (retryCount hhc + 1)) with (S (Z.to_nat (retryCount hhc)))
      by lia.
    rewrite hr_after_attempts_last.
    replace (0 + Z.of_nat (Z.to_nat (retryCount hhc))) with (retryCount hhc) by lia.
    pose proof (Hall (retryCount hhc) ltac:(lia)) as Hv.
    unfold attempt_verdict, run_verdict in Hv.
    unfold hr_after_attempt, hr_after_run.
    rewrite Ha, Ht, Hb, Hr in *. split; [reflexivity|].
    destruct (Z.leb_spec http_StatusInternalServerError (StatusCode response));
      [assumption|discriminate].
Qed.

Lemma do_exhausted_returns_nil_error_witness :
  exists r tr,
    do Examples.down (SetRetryCount NewHystrixHTTPClient 1) 3 Examples.a_request
    = Returned r None tr
    /\ r = hr_after_attempts Examples.down (Z.to_nat (1 + 1)) 0 Response_zero
    /\ ((forall j, 0 <= j <= 1 -> no_response Examples.down j) ->
        r = Response_zero)
    /\ (forall response rd,
          breaker Examples.down 1 = Allow ->
          transport Examples.down 1 = inr response ->
          Body response = Some rd -> rd_err rd = None ->
          r = {| statusCode := StatusCode response; body := rd_data rd |}
          /\ http_StatusInternalServerError <= StatusCode response).
Proof.
  apply (do_exhausted_returns_nil_error
           Examples.down (SetRetryCount NewHystrixHTTPClient 1) Examples.a_request 3).
  - unfold GoInt.max_int, GoInt.bits. simpl. lia.
  - intros j _. reflexivity.
  - simpl. lia.
Defined.

(** C3, as stated, with the circuit open and no retries: [Get] returns the
    empty [Response] and a nil error, and at no number of steps does it return
    an error. *)
Lemma Get_open_circuit_returns_no_error :
  Get Examples.open_circuit NewHystrixHTTPClient 2 "http://localhost/"
  = Returned Response_zero None [EvSetClose; EvHystrixDo "default"; EvSleep 0]
  /\ ~ exists fuel r e tr,
         Get Examples.open_circuit NewHystrixHTTPClient fuel "http://localhost/"
         = Returned r (Some e) tr.
Proof.
  split; [reflexivity|].
  intros (fuel & r & e & tr & H).
  change (Get Examples.open_circuit NewHystrixHTTPClient fuel "http://localhost/")
    with (do Examples.open_circuit NewHystrixHTTPClient fuel
            {| Method := "GET"; URL := "http://localhost/";
               ReqBody := None; Close := false |}) in H.
  apply do_error_nil in H. discriminate.
Qed.

(** C3 (amended): a rejection by the breaker is never handed to the caller:
    whenever one of the five verbs returns after the request was made, its
    error is nil, whatever the retry count.  And when
    [0 <= retryCount < MaxInt64] and the breaker denies admission at every
    attempt, each verb does return, with the empty [Response] and a nil
    error: every rejection counts as a failed attempt, so that the breaker is
    consulted [retryCount + 1] times, each time followed by the backoff sleep,
    and the transport is never called. *)
Theorem verbs_rejected_return_nil_error
    (w : world) (hhc : hystrixHTTPClient) (fuel : nat) (url : string) (b : bytes) :
  url_Parse w url = None ->
  Forall (fun o => forall r err tr, o = Returned r err tr -> err = None)
         (verbs w hhc fuel url b)
  /\ (0 <= retryCount hhc < GoInt.max_int ->
      (forall j, 0 <= j <= retryCount hhc -> exists e, breaker w j = Reject e) ->
      (Z.to_nat (retryCount hhc) + 1 < fuel)%nat ->
      Forall (fun o => exists tr,
                o = Returned Response_zero None tr
                /\ calls tr = []
                /\ Z.of_nat (breaker_uses tr) = retryCount hhc + 1
                /\ sleeps tr = map (NextInterval (retrier hhc))
                                   (zseq 0 (Z.to_nat (retryCount hhc + 1))))
             (verbs w hhc fuel url b)).
Proof.
  intros Hurl. split.
  - eapply Forall_impl; [|apply verbs_do; exact Hurl].
    intros o [req ->] r err tr H. apply do_error_nil in H. exact H.
  - intros HN Hall Hfuel.
    eapply Forall_impl; [|apply verbs_do; exact Hurl].
    intros o [req ->].
    rewrite (do_exhausted w hhc fuel req (Z.to_nat (retryCount hhc + 1)));
      try lia.
    2:{ intros j Hj. unfold attempt_verdict.
        destruct (Hall j Hj) as [e ->]. reflexivity. }
    eexists. split; [f_equal|].
    + apply hr_after_attempts_no_response.
      intros j Hj. left. apply Hall. lia.
    + simpl. rewrite failures_events_breaker_uses, failures_events_sleeps.
      rewrite failures_events_calls_rejected; [repeat split; lia|].
      intros j Hj. apply Hall. lia.
Qed.

Lemma verbs_rejected_return_nil_error_witness :
  Forall (fun o => forall r err tr, o = Returned r err tr -> err = None)
         (verbs Examples.open_circuit (SetRetryCount NewHystrixHTTPClient 2) 4
                "http://localhost/" Examples.ok_body)
  /\ Forall (fun o => exists tr,
               o = Returned Response_zero None tr
               /\ calls tr = []
               /\ Z.of_nat (breaker_uses tr) = 2 + 1
               /\ sleeps tr = map (fun _ => 0) (zseq 0 (Z.to_nat (2 + 1))))
            (verbs Examples.open_circuit (SetRetryCount NewHystrixHTTPClient 2) 4
                   "http://localhost/" Examples.ok_body).
Proof.
  destruct (verbs_rejected_return_nil_error
              Examples.open_circuit (SetRetryCount NewHystrixHTTPClient 2) 4
              "http://localhost/" Examples.ok_body eq_refl) as [Hnil Hall].
  split; [exact Hnil|]. apply Hall.
  - unfold GoInt.max_int, GoInt.bits. simpl. lia.
  - intros j _. exists ErrCircuitOpen. reflexivity.
  - simpl. lia.
Defined.

(** C4, as stated, with retry count 2, a constant backoff of 100 and every
    connection refused: [do] makes three calls and sleeps three times, the
    third time after the final attempt. *)
Lemma do_retry2_constant_sleeps_three_times :
  do Examples.refused
     (SetRetrier (SetRetryCount NewHystrixHTTPClient 2) (Examples.constant_backoff 100))
     4 Examples.a_request
  = Returned Response_zero None
      [ EvSetClose;
        EvHystrixDo "default"; EvClientDo (closed Examples.a_request); EvSleep 100;
        EvHystrixDo "default"; EvClientDo (closed Examples.a_request); EvSleep 100;
        EvHystrixDo "default"; EvClientDo (closed Examples.a_request); EvSleep 100 ]
  /\ forall fuel r e tr,
       do Examples.refused
          (SetRetrier (SetRetryCount NewHystrixHTTPClient 2)
                      (Examples.constant_backoff 100))
          fuel Examples.a_request
       = Returned r e tr ->
       sleeps tr <> [100; 100].
Proof.
  split; [reflexivity|].
  intros fuel r e tr H.
  destruct fuel as [|[|[|[|fuel]]]]; try discriminate H.
  rewrite (do_exhausted _ _ _ _ 3%nat) in H.
  - injection H as _ _ <-. discriminate.
  - reflexivity.
  - unfold GoInt.max_int, GoInt.bits. simpl. lia.
  - intros j _. reflexivity.
  - lia.
Qed.

(** C4 (amended): with retry count 2, a backoff whose interval is the same
    [d] at every attempt, and a unit of work that is run and fails every time,
    [do] makes exactly three calls and sleeps exactly three times for [d]:
    once after each failed attempt, the final one included, so that the last
    thing it does before returning is to sleep. *)
Theorem do_retry2_constant_backoff
    (w : world) (hhc : hystrixHTTPClient) (d : Z) (req : http_Request) (fuel : nat) :
  retryCount hhc = 2 ->
  (forall i, NextInterval (retrier hhc) i = d) ->
  (forall j, 0 <= j <= 2 -> work_fails w j) ->
  (3 < fuel)%nat ->
  exists r tr,
    do w hhc fuel req = Returned r None tr
    /\ calls tr = [closed req; closed req; closed req]
    /\ sleeps tr = [d; d; d]
    /\ last tr EvSetClose = EvSleep d.
Proof.
  intros HN Hd Hall Hfuel.
  rewrite (do_exhausted w hhc fuel req 3%nat); try (rewrite HN); try lia.
  2:{ unfold GoInt.max_int, GoInt.bits. lia. }
  2:{ intros j Hj. apply work_fails_verdict, Hall, Hj. }
  do 2 eexists. split; [reflexivity|].
  destruct (Hall 0 ltac:(lia)) as [H0 _].
  destruct (Hall 1 ltac:(lia)) as [H1 _].
  destruct (Hall 2 ltac:(lia)) as [H2 _].
  simpl. unfold attempt_events. simpl.
  rewrite H0, H1, H2, !Hd. simpl. repeat split.
Qed.

Lemma do_retry2_constant_backoff_witness :
  exists r tr,
    do Examples.down
       (SetRetrier (SetRetryCount NewHystrixHTTPClient 2) (Examples.constant_backoff 100))
       4 Examples.a_request
    = Returned r None tr
    /\ calls tr = [closed Examples.a_request; closed Examples.a_request;
                   closed Examples.a_request]
    /\ sleeps tr = [100; 100; 100]
    /\ last tr EvSetClose = EvSleep 100.
Proof.
  apply (do_retry2_constant_backoff Examples.down
           (SetRetrier (SetRetryCount NewHystrixHTTPClient 2)
                       (Examples.constant_backoff 100))
           100 Examples.a_request 4).
  - reflexivity.
  - intros i. reflexivity.
  - intros j _. split; reflexivity.
  - lia.
Defined.

(** C5: when the request cannot be constructed from the URL, each of the five
    verbs returns at once the empty [Response] and the construction error
    wrapped in a message; nothing has happened by then: the breaker was not
    used, the transport not called, no sleep taken and the loop not entered. *)
Theorem verbs_bad_url_return_at_once
    (w : world) (hhc : hystrixHTTPClient) (fuel : nat) (url : string) (b : bytes)
    (err : error) :
  url_Parse w url = Some err ->
  Forall (fun o => exists msg,
            o = Returned Response_zero (Some (errors_Wrap err msg)) [])
         (verbs w hhc fuel url b).
Proof.
  intros Hurl. unfold verbs, Get, Post, Put, Patch, Delete, http_NewRequest.
  rewrite Hurl. repeat constructor; eexists; reflexivity.
Qed.

Lemma verbs_bad_url_return_at_once_witness :
  Forall (fun o => exists msg,
            o = Returned Response_zero
                  (Some (errors_Wrap (ErrURL "missing protocol scheme") msg)) [])
         (verbs Examples.down (SetRetryCount NewHystrixHTTPClient 5) 0
                "://localhost" Examples.ok_body).
Proof.
  apply (verbs_bad_url_return_at_once
           Examples.down (SetRetryCount NewHystrixHTTPClient 5) 0
           "://localhost" Examples.ok_body (ErrURL "missing protocol scheme")).
  reflexivity.
Defined.



(** C7: when attempt [k] is the first that does not fail and it succeeds,
    [do] returns right after it: the breaker has been used [k + 1] times and
    no more, however many retries are left; the only sleeps are the [k] that
    followed the failed attempts; and the call of attempt [k] is the last
    thing observed. *)
Theorem do_returns_at_first_success
    (w : world) (hhc : hystrixHTTPClient) (req : http_Request) (fuel k : nat) :
  GoInt.in_range (retryCount hhc) ->
  Z.of_nat k <= retryCount hhc ->
  (forall j, 0 <= j < Z.of_nat k -> attempt_verdict w j = Fails) ->
  attempt_verdict w (Z.of_nat k) = Succeeds ->
  (k < fuel)%nat ->
  exists r tr,
    do w hhc fuel req = Returned r None tr
    /\ tr = EvSetClose :: failures_events w hhc k 0 (closed req)
            ++ [EvHystrixDo (hystrixCommandName hhc); EvClientDo (closed req)]
    /\ breaker_uses tr = S k
    /\ sleeps tr = map (NextInterval (retrier hhc)) (zseq 0 k)
    /\ last tr EvSetClose = EvClientDo (closed req).
Proof.
  intros [_ Hmax] Hk Hall Hsucc Hfuel.
  rewrite (do_first_success w hhc fuel req k) by (auto; lia).
  assert (Ha : breaker w (Z.of_nat k) = Allow).
  { unfold attempt_verdict in Hsucc.
    destruct (breaker w (Z.of_nat k)); [reflexivity|discriminate]. }
  unfold attempt_events. rewrite Ha.
  do 2 eexists. split; [reflexivity|]. split; [reflexivity|].
  simpl. rewrite breaker_uses_app, sleeps_app.
  rewrite failures_events_breaker_uses, failures_events_sleeps. simpl.
  rewrite app_nil_r. repeat split; [lia|].
  exact (last_two (EvSetClose :: failures_events w hhc k 0 (closed req)) _ _ _).
Qed.

Lemma do_returns_at_first_success_witness :
  exists r tr,
    do (Examples.up_from 2) (SetRetryCount NewHystrixHTTPClient 5) 4 Examples.a_request
    = Returned r None tr
    /\ tr = EvSetClose
            :: failures_events (Examples.up_from 2)
                 (SetRetryCount NewHystrixHTTPClient 5) 2 0 (closed Examples.a_request)
            ++ [EvHystrixDo "default"; EvClientDo (closed Examples.a_request)]
    /\ breaker_uses tr = 3%nat
    /\ sleeps tr = map (fun _ => 0) (zseq 0 2)
    /\ last tr EvSetClose = EvClientDo (closed Examples.a_request).
Proof.
  apply (do_returns_at_first_success (Examples.up_from 2)
           (SetRetryCount NewHystrixHTTPClient 5) Examples.a_request 4 2).
  - unfold GoInt.in_range, GoInt.min_int, GoInt.max_int, GoInt.bits. simpl. lia.
  - simpl. lia.
  - intros j Hj. unfold attempt_verdict, run_verdict. simpl.
    destruct (Z.ltb_spec j 2); [reflexivity|lia].
  - reflexivity.
  - lia.
Defined.

(** C8: whatever the world does and however the call ends, [do] writes
    [request.Close] first of all and exactly once, and every request it hands
    to the transport is the caller's request with [Close] set. *)
Theorem do_marks_request_close_once
    (w : world) (hhc : hystrixHTTPClient) (fuel : nat) (req : http_Request) :
  exists ev,
    events (do w hhc fuel req) = EvSetClose :: ev
    /\ close_writes (events (do w hhc fuel req)) = 1%nat
    /\ forall r, In r (calls (events (do w hhc fuel req))) ->
                 r = closed req /\ Close r = true.
Proof.
  assert (He : events (do w hhc fuel req)
               = trace (final (loop w hhc fuel 0 (start req)))).
  { rewrite do_loop. destruct (loop w hhc fuel 0 (start req)); reflexivity. }
  rewrite He.
  destruct (loop_frame w hhc fuel 0 (start req)) as (ev & Ht & _ & Hc & Hin).
  exists ev. rewrite Ht. simpl.
  split; [reflexivity|]. split; [rewrite Hc; reflexivity|].
  intros r H. apply Hin in H. subst r. split; reflexivity.
Qed.




(** C10: [hr] is one value for the whole call and no attempt resets it.  If
    attempt [i] is answered with a status of 500 or more, and every later
    attempt up to [retryCount] brings no response (the transport fails or the
    breaker rejects), then what [do] returns when the attempts are used up
    carries the status and body of attempt [i]. *)
Theorem do_returns_stale_response
    (w : world) (hhc : hystrixHTTPClient) (req : http_Request) (fuel : nat)
    (i : Z) (response : http_Response) (rd : Reader) :
  0 <= i <= retryCount hhc ->
  retryCount hhc < GoInt.max_int ->
  (forall j, 0 <= j < i -> attempt_verdict w j = Fails) ->
  breaker w i = Allow ->
  transport w i = inr response ->
  Body response = Some rd ->
  rd_err rd = None ->
  http_StatusInternalServerError <= StatusCode response ->
  (forall j, i < j <= retryCount hhc -> no_response w j) ->
  (Z.to_nat (retryCount hhc) + 1 < fuel)%nat ->
  exists tr,
    do w hhc fuel req
    = Returned {| statusCode := StatusCode response; body := rd_data rd |} None tr.
Proof.
  intros Hi Hmax Hbefore Ha Ht Hb Hr Hs Hafter Hfuel.
  assert (Hvi : attempt_verdict w i = Fails).
  { unfold attempt_verdict, run_verdict. rewrite Ha, Ht, Hb, Hr.
    destruct (Z.leb_spec http_StatusInternalServerError (StatusCode response));
      [reflexivity|lia]. }
  assert (Hall : forall j, 0 <= j <= retryCount hhc -> attempt_verdict w j = Fails).
  { intros j Hj.
    destruct (Z.lt_trichotomy j i) as [Hlt|[->|Hgt]].
    - apply Hbefore. lia.
    - exact Hvi.
    - unfold attempt_verdict.
      destruct (Hafter j ltac:(lia)) as [[e ->]|[e He]]; [reflexivity|].
      rewrite He. destruct (breaker w j); reflexivity. }
  rewrite (do_exhausted w hhc fuel req (Z.to_nat (retryCount hhc + 1)))
    by (auto; lia).
  eexists. f_equal.
  replace (Z.to_nat (retryCount hhc + 1))
    with (S (Z.to_nat i) + Z.to_nat (retryCount hhc - i))%nat by lia.
  rewrite hr_after_attempts_app.
  rewrite hr_after_attempts_no_response by (intros j Hj; apply Hafter; lia).
  rewrite hr_after_attempts_last.
  replace (0 + Z.of_nat (Z.to_nat i)) with i by lia.
  unfold hr_after_attempt, hr_after_run. rewrite Ha, Ht, Hb, Hr. reflexivity.
Qed.

Lemma do_returns_stale_response_witness :
  exists tr,
    do Examples.down_then_refused (SetRetryCount NewHystrixHTTPClient 2) 4
       Examples.a_request
    = Returned {| statusCode := 503; body := Examples.oops_body |} None tr.
Proof.
  apply (do_returns_stale_response Examples.down_then_refused
           (SetRetryCount NewHystrixHTTPClient 2) Examples.a_request 4 0
           {| StatusCode := 503;
              Body := Some {| rd_data := Examples.oops_body; rd_err := None |} |}
           {| rd_data := Examples.oops_body; rd_err := None |}).
  - simpl. lia.
  - unfold GoInt.max_int, GoInt.bits. simpl. lia.
  - intros j Hj. lia.
  - reflexivity.
  - reflexivity.
  - reflexivity.
  - reflexivity.
  - unfold http_StatusInternalServerError. simpl. lia.
  - intros j Hj. right. exists (ErrTransport "connection refused"). simpl.
    destruct (Z.eqb_spec j 0); [lia|reflexivity].
  - simpl. lia.
Defined.


(** ** The loop, whatever the world does *)

Section AnyWorld.

Variable w : world.
Variable hhc : hystrixHTTPClient.

(** A run of the loop from [i] consists of some number [m] of failed
    attempts, after which the attempts are used up, or the next attempt
    succeeds, or the next attempt crashes, or the steps allowed are used up. *)
Lemma loop_cases (fuel : nat) : forall (i : Z) (s : state),
  GoInt.min_int <= i -> i <= retryCount hhc + 1 ->
  retryCount hhc < GoInt.max_int ->
  exists m : nat,
    (forall j, i <= j < i + Z.of_nat m -> attempt_verdict w j = Fails)
    /\ i + Z.of_nat m <= retryCount hhc + 1
    /\ (m <= fuel)%nat
    /\ ((i + Z.of_nat m = retryCount hhc + 1 /\ (m < fuel)%nat
         /\ loop w hhc fuel i s = Val tt (after_failures w hhc m i s))
        \/ (i + Z.of_nat m <= retryCount hhc /\ (m < fuel)%nat
            /\ attempt_verdict w (i + Z.of_nat m) = Succeeds
            /\ loop w hhc fuel i s
               = Val tt (after_attempt w hhc (i + Z.of_nat m)
                                        (after_failures w hhc m i s)))
        \/ (i + Z.of_nat m <= retryCount hhc /\ (m < fuel)%nat
            /\ attempt_verdict w (i + Z.of_nat m) = Crashes
            /\ loop w hhc fuel i s
               = Panic (after_attempt w hhc (i + Z.of_nat m)
                                       (after_failures w hhc m i s)))
        \/ (m = fuel
            /\ loop w hhc fuel i s = OutOfFuel (after_failures w hhc m i s))).
Proof.
  induction fuel as [|fuel IH]; intros i s Hlo Hhi Hmax.
  - exists O. split; [intros j Hj; lia|]. split; [lia|]. split; [lia|].
    right; right; right. split; reflexivity.
  - destruct (Z_le_gt_dec i (retryCount hhc)) as [Hle|Hgt].
    2:{ exists O. split; [intros j Hj; lia|]. split; [lia|]. split; [lia|].
        left. split; [lia|]. split; [lia|]. apply loop_exit. lia. }
    destruct (attempt_verdict w i) eqn:Hv.
    + exists O. split; [intros j Hj; lia|]. split; [lia|]. split; [lia|].
      right; left. rewrite Z.add_0_r. repeat split; try lia; try assumption.
      apply loop_Succeeds; assumption.
    + destruct (IH (i + 1) (after_failed w hhc i s)) as (m & Hall & Hm & Hf & Hc);
        try lia.
      exists (S m). split; [|split; [lia|split; [lia|]]].
      * intros j Hj. destruct (Z.eq_dec j i) as [->|Hne]; [assumption|].
        apply Hall. lia.
      * rewrite loop_Fails by assumption. rewrite incr_no_wrap by lia.
        replace (i + Z.of_nat (S m)) with (i + 1 + Z.of_nat m) by lia.
        simpl after_failures.
        destruct Hc as [(H1 & H2 & H3)|[(H1 & H2 & H3 & H4)|
                       [(H1 & H2 & H3 & H4)|(H1 & H2)]]].
        -- left. repeat split; try lia; assumption.
        -- right; left. repeat split; try lia; assumption.
        -- right; right; left. repeat split; try lia; assumption.
        -- right; right; right. split; [lia|assumption].
    + exists O. split; [intros j Hj; lia|]. split; [lia|]. split; [lia|].
      right; right; left. rewrite Z.add_0_r. repeat split; try lia; try assumption.
      apply loop_Crashes; assumption.
Qed.

(** What [do] has shown to the outside when it ends or is cut short: the
    mark on the request, [m] failed attempts each followed by its sleep, and
    then perhaps one attempt more. *)
Lemma do_events (fuel : nat) (req : http_Request) :
  0 <= retryCount hhc + 1 ->
  retryCount hhc < GoInt.max_int ->
  exists (m : nat) (rest : list event),
    events (do w hhc fuel req)
    = EvSetClose :: failures_events w hhc m 0 (closed req) ++ rest
    /\ Z.of_nat m <= retryCount hhc + 1
    /\ (m <= fuel)%nat
    /\ (rest = []
        \/ (Z.of_nat m <= retryCount hhc
            /\ rest = attempt_events w (hystrixCommandName hhc) (Z.of_nat m)
                                      (closed req))).
Proof.
  intros HN Hmax. pose proof min_int_le_0 as H0.
  destruct (loop_cases fuel 0 (start req)) as (m & _ & Hm & Hf & Hc); try lia.
  rewrite do_loop. exists m.
  destruct Hc as [(H1 & H2 & ->)|[(H1 & H2 & H3 & ->)|
                 [(H1 & H2 & H3 & ->)|(H1 & ->)]]]; simpl events.
  - exists []. rewrite after_failures_trace, app_nil_r.
    repeat split; try lia. left; reflexivity.
  - eexists. rewrite after_attempt_trace, after_failures_request,
      after_failures_trace. simpl. split; [reflexivity|].
    repeat split; try lia. right. split; [lia|reflexivity].
  - eexists. rewrite after_attempt_trace, after_failures_request,
      after_failures_trace. simpl. split; [reflexivity|].
    repeat split; try lia. right. split; [lia|reflexivity].
  - exists []. rewrite after_failures_trace, app_nil_r.
    repeat split; try lia. left; reflexivity.
Qed.

Lemma failures_events_calls_length (n : nat) : forall i req,
  (List.length (calls (failures_events w hhc n i req)) <= n)%nat.
Proof.
  induction n as [|n IH]; intros i req; simpl; [lia|].
  unfold attempt_events. specialize (IH (i + 1) req).
  destruct (breaker w i); simpl; lia.
Qed.

Lemma failures_events_breaker_names (n : nat) : forall i req name,
  In name (breaker_names (failures_events w hhc n i req)) ->
  name = hystrixCommandName hhc.
Proof.
  induction n as [|n IH]; intros i req name; simpl; [tauto|].
  unfold attempt_events.
  destruct (breaker w i); simpl; intros [H|H]; try congruence; eauto.
Qed.

End AnyWorld.

Lemma breaker_names_app (a b : list event) :
  breaker_names (a ++ b) = breaker_names a ++ breaker_names b.
Proof.
  induction a as [|e a IH]; simpl; [reflexivity|].
  destruct e; simpl; rewrite IH; reflexivity.
Qed.

Lemma awake_app (a b : list event) : awake (a ++ b) = awake a ++ awake b.
Proof.
  induction a as [|e a IH]; simpl; [reflexivity|].
  destruct e; simpl; rewrite IH; reflexivity.
Qed.

(** The loop with another retrier: the same steps, other sleeps. *)
Lemma loop_other_retrier (w : world) (hhc : hystrixHTTPClient) (r : Retriable)
    (fuel : nat) : forall (i : Z) (s s' : state),
  same_but_sleeps s s' ->
  match loop w (SetRetrier hhc r) fuel i s, loop w hhc fuel i s' with
  | Val _ t, Val _ t' => same_but_sleeps t t'
  | Panic t, Panic t' => same_but_sleeps t t'
  | OutOfFuel t, OutOfFuel t' => same_but_sleeps t t'
  | _, _ => False
  end.
Proof.
  induction fuel as [|fuel IH]; intros i s s' Hs.
  - exact Hs.
  - rewrite !loop_step. simpl retryCount.
    destruct (i <=? retryCount hhc); [|exact Hs].
    assert (Ha : same_but_sleeps (after_attempt w (SetRetrier hhc r) i s)
                                 (after_attempt w hhc i s')).
    { destruct Hs as (Hh & Hq & Ht). unfold same_but_sleeps.
      rewrite !after_attempt_hr, !after_attempt_request, !after_attempt_trace,
        !awake_app. simpl hystrixCommandName. rewrite Hh, Hq, Ht. auto. }
    destruct (attempt_verdict w i) eqn:Hv.
    + rewrite !attempt_Succeeds by assumption. exact Ha.
    + destruct (attempt_Fails w (SetRetrier hhc r) i s Hv) as [e ->].
      destruct (attempt_Fails w hhc i s' Hv) as [e' ->].
      apply IH. destruct Ha as (Hh & Hq & Ht). unfold same_but_sleeps. simpl.
      rewrite !awake_app. simpl. rewrite !app_nil_r. auto.
    + rewrite !attempt_Crashes by assumption. exact Ha.
Qed.

(** The events of the failed attempts depend on the client through its
    command name and its retrier only. *)
Lemma failures_events_ext (w : world) (c c' : hystrixHTTPClient) (n : nat) :
  hystrixCommandName c = hystrixCommandName c' -> retrier c = retrier c' ->
  forall i req, failures_events w c n i req = failures_events w c' n i req.
Proof.
  intros Hn Hr. induction n as [|n IH]; intros i req; simpl; [reflexivity|].
  rewrite Hn, Hr, IH. reflexivity.
Qed.

(** Every request [do] hands to the transport is the caller's, marked. *)
Lemma do_calls_closed (w : world) (hhc : hystrixHTTPClient) (fuel : nat)
    (req q : http_Request) :
  In q (calls (events (do w hhc fuel req))) -> q = closed req.
Proof.
  assert (He : events (do w hhc fuel req)
               = trace (final (loop w hhc fuel 0 (start req)))).
  { rewrite do_loop. destruct (loop w hhc fuel 0 (start req)); reflexivity. }
  rewrite He.
  destruct (loop_frame w hhc fuel 0 (start req)) as (ev & Ht & _ & _ & Hin).
  rewrite Ht. simpl. apply Hin.
Qed.

(** The names under which the loop enters [hystrix.Do]. *)
Lemma loop_breaker_names (w : world) (hhc : hystrixHTTPClient) (fuel : nat) :
  forall (i : Z) (s : state),
  (forall name, In name (breaker_names (trace s)) -> name = hystrixCommandName hhc) ->
  forall name, In name (breaker_names (trace (final (loop w hhc fuel i s)))) ->
               name = hystrixCommandName hhc.
Proof.
  induction fuel as [|fuel IH]; intros i s Hs; [exact Hs|].
  rewrite loop_step. destruct (i <=? retryCount hhc); [|exact Hs].
  assert (Ha : forall name,
    In name (breaker_names (trace (after_attempt w hhc i s))) ->
    name = hystrixCommandName hhc).
  { intros name. rewrite after_attempt_trace, breaker_names_app, in_app_iff.
    intros [H|H]; [auto|]. unfold attempt_events in H.
    destruct (breaker w i); simpl in H; intuition congruence. }
  destruct (attempt_cases w hhc i s) as [[e ->]|[->| ->]]; try exact Ha.
  apply IH. simpl. intros name.
  rewrite breaker_names_app, in_app_iff. simpl. intros [H|[]]. auto.
Qed.

Lemma configured_name (hhc : hystrixHTTPClient) :
  configured hhc -> hystrixCommandName hhc = "default"%string.
Proof. induction 1; simpl; auto. Qed.

(** ** Further properties of the client *)

(** X1: whatever the breaker and the transport do, a call with
    [0 <= retryCount < MaxInt64] comes to an end, by returning or by a panic,
    and by then it has used the breaker at least once and at most
    [retryCount + 1] times, and called the transport at most once per use of
    the breaker. *)
Theorem do_ends_within_retryCount_plus_1_attempts
    (w : world) (hhc : hystrixHTTPClient) (fuel : nat) (req : http_Request) :
  0 <= retryCount hhc < GoInt.max_int ->
  (Z.to_nat (retryCount hhc) + 1 < fuel)%nat ->
  (forall tr, do w hhc fuel req <> Running tr)
  /\ 1 <= Z.of_nat (breaker_uses (events (do w hhc fuel req))) <= retryCount hhc + 1
  /\ (List.length (calls (events (do w hhc fuel req)))
      <= breaker_uses (events (do w hhc fuel req)))%nat.
Proof.
  intros HN Hfuel. pose proof min_int_le_0 as H0.
  destruct (loop_cases w hhc fuel 0 (start req)) as (m & _ & Hm & Hf & Hc); try lia.
  rewrite do_loop.
  pose proof (failures_events_calls_length w hhc m 0 (closed req)) as Hcalls.
  destruct Hc as [(H1 & H2 & ->)|[(H1 & H2 & H3 & ->)|
                 [(H1 & H2 & H3 & ->)|(H1 & ->)]]]; simpl events.
  - rewrite after_failures_trace. simpl.
    rewrite failures_events_breaker_uses. repeat split; try discriminate; lia.
  - change (0 + Z.of_nat m) with (Z.of_nat m) in *.
    rewrite !after_attempt_trace, !after_failures_request, !after_failures_trace.
    rewrite !breaker_uses_app, !calls_app, !length_app,
      failures_events_breaker_uses.
    unfold attempt_events. destruct (breaker w (Z.of_nat m)); simpl;
      repeat split; try discriminate; lia.
  - change (0 + Z.of_nat m) with (Z.of_nat m) in *.
    rewrite !after_attempt_trace, !after_failures_request, !after_failures_trace.
    rewrite !breaker_uses_app, !calls_app, !length_app,
      failures_events_breaker_uses.
    unfold attempt_events. destruct (breaker w (Z.of_nat m)); simpl;
      repeat split; try discriminate; lia.
  - lia.
Qed.

Lemma do_ends_within_retryCount_plus_1_attempts_witness :
  (forall tr,
     do Scenarios.rejected_then_up (SetRetryCount NewHystrixHTTPClient 3) 5
        Examples.a_request <> Running tr)
  /\ 1 <= Z.of_nat (breaker_uses (events
            (do Scenarios.rejected_then_up (SetRetryCount NewHystrixHTTPClient 3) 5
                Examples.a_request))) <= 3 + 1
  /\ (List.length (calls (events
        (do Scenarios.rejected_then_up (SetRetryCount NewHystrixHTTPClient 3) 5
            Examples.a_request)))
      <= breaker_uses (events
           (do Scenarios.rejected_then_up (SetRetryCount NewHystrixHTTPClient 3) 5
               Examples.a_request)))%nat.
Proof.
  apply (do_ends_within_retryCount_plus_1_attempts Scenarios.rejected_then_up
           (SetRetryCount NewHystrixHTTPClient 3) 5 Examples.a_request).
  - unfold GoInt.max_int, GoInt.bits. simpl. lia.
  - simpl. lia.
Defined.

(** X2: with a negative retry count the loop body is never entered: each of
    the five verbs returns the empty [Response] and a nil error, having only
    marked the request; the breaker is not used and nothing is sent. *)
Theorem verbs_negative_retryCount_send_nothing
    (w : world) (hhc : hystrixHTTPClient) (fuel : nat) (url : string) (b : bytes) :
  url_Parse w url = None ->
  retryCount hhc < 0 ->
  (0 < fuel)%nat ->
  Forall (fun o => o = Returned Response_zero None [EvSetClose])
         (verbs w hhc fuel url b).
Proof.
  intros Hurl HN Hfuel.
  eapply Forall_impl; [|apply verbs_do; exact Hurl].
  intros o [req ->]. rewrite do_loop.
  destruct fuel as [|fuel]; [lia|].
  rewrite loop_exit by lia. reflexivity.
Qed.

Lemma verbs_negative_retryCount_send_nothing_witness :
  Forall (fun o => o = Returned Response_zero None [EvSetClose])
         (verbs Examples.down (SetRetryCount NewHystrixHTTPClient (-1)) 1
                "http://localhost/" Examples.ok_body).
Proof.
  apply (verbs_negative_retryCount_send_nothing Examples.down
           (SetRetryCount NewHystrixHTTPClient (-1)) 1
           "http://localhost/" Examples.ok_body).
  - reflexivity.
  - simpl. lia.
  - lia.
Defined.

(** X3: the backoff is asked with the index of the attempt that failed,
    counted from 0: at any point of a call, the sleeps taken so far are
    [NextInterval 0], [NextInterval 1], ... in this order, one for each
    failed attempt and never more than there were uses of the breaker. *)
Theorem do_sleeps_by_attempt_index
    (w : world) (hhc : hystrixHTTPClient) (fuel : nat) (req : http_Request) :
  0 <= retryCount hhc < GoInt.max_int ->
  sleeps (events (do w hhc fuel req))
  = map (NextInterval (retrier hhc))
        (zseq 0 (List.length (sleeps (events (do w hhc fuel req)))))
  /\ (List.length (sleeps (events (do w hhc fuel req)))
      <= breaker_uses (events (do w hhc fuel req)))%nat.
Proof.
  intros HN.
  destruct (do_events w hhc fuel req) as (m & rest & -> & _ & _ & Hrest); try lia.
  assert (Hs : sleeps rest = []).
  { destruct Hrest as [->|[_ ->]]; [reflexivity|].
    unfold attempt_events. destruct (breaker w (Z.of_nat m)); reflexivity. }
  simpl. rewrite sleeps_app, breaker_uses_app, Hs, app_nil_r.
  rewrite failures_events_sleeps, failures_events_breaker_uses.
  rewrite length_map, zseq_length. split; [reflexivity|lia].
Qed.

Lemma do_sleeps_by_attempt_index_witness :
  sleeps (events (do Examples.refused
                     (SetRetrier (SetRetryCount NewHystrixHTTPClient 2)
                                 (Scenarios.linear_backoff 50))
                     4 Examples.a_request))
  = map (fun i => 50 * (i + 1))
        (zseq 0 (List.length (sleeps (events
           (do Examples.refused
               (SetRetrier (SetRetryCount NewHystrixHTTPClient 2)
                           (Scenarios.linear_backoff 50))
               4 Examples.a_request)))))
  /\ (List.length (sleeps (events
        (do Examples.refused
            (SetRetrier (SetRetryCount NewHystrixHTTPClient 2)
                        (Scenarios.linear_backoff 50))
            4 Examples.a_request)))
      <= breaker_uses (events
           (do Examples.refused
               (SetRetrier (SetRetryCount NewHystrixHTTPClient 2)
                           (Scenarios.linear_backoff 50))
               4 Examples.a_request)))%nat.
Proof.
  apply (do_sleeps_by_attempt_index Examples.refused
           (SetRetrier (SetRetryCount NewHystrixHTTPClient 2)
                       (Scenarios.linear_backoff 50))
           4 Examples.a_request).
  unfold GoInt.max_int, GoInt.bits. simpl. lia.
Defined.

(** X4: the retrier decides how long the call sleeps and nothing else: with
    another retrier, [do] ends the same way, with the same [Response] and
    error, after the same uses of the breaker and the same calls of the
    transport in the same order. *)
Theorem do_retrier_only_changes_sleeps
    (w : world) (hhc : hystrixHTTPClient) (r : Retriable) (fuel : nat)
    (req : http_Request) :
  without_sleeps (do w (SetRetrier hhc r) fuel req)
  = without_sleeps (do w hhc fuel req).
Proof.
  rewrite !do_loop.
  pose proof (loop_other_retrier w hhc r fuel 0 (start req) (start req)
                (conj eq_refl (conj eq_refl eq_refl))) as H.
  destruct (loop w (SetRetrier hhc r) fuel 0 (start req));
    destruct (loop w hhc fuel 0 (start req)); try contradiction;
    destruct H as (Hh & _ & Ht); simpl; rewrite ?Hh, Ht; reflexivity.
Qed.

(** X5: the only error a verb ever returns is the one of request
    construction: if any of the five verbs returns a non-nil error, the URL
    did not parse, the error is that parse error wrapped in a message, the
    [Response] is empty and nothing was attempted.  No failure of the breaker
    or of the transport comes back as an error. *)
Theorem verbs_error_is_request_construction
    (w : world) (hhc : hystrixHTTPClient) (fuel : nat) (url : string) (b : bytes)
    (o : outcome) (r : Response) (e : error) (tr : list event) :
  In o (verbs w hhc fuel url b) ->
  o = Returned r (Some e) tr ->
  exists err msg,
    url_Parse w url = Some err
    /\ e = errors_Wrap err msg /\ r = Response_zero /\ tr = [].
Proof.
  intros Hin Ho. destruct (url_Parse w url) as [err|] eqn:Hurl.
  - unfold verbs, Get, Post, Put, Patch, Delete, http_NewRequest in Hin.
    rewrite Hurl in Hin. simpl in Hin.
    destruct Hin as [<-|[<-|[<-|[<-|[<-|[]]]]]]; injection Ho as <- <- <-;
      do 2 eexists; repeat split; reflexivity.
  - pose proof (verbs_do w hhc fuel url b Hurl) as Hdo.
    rewrite Forall_forall in Hdo. destruct (Hdo o Hin) as [req ->].
    apply do_error_nil in Ho. discriminate.
Qed.

Lemma verbs_error_is_request_construction_witness :
  exists err msg,
    url_Parse Examples.refused "://localhost" = Some err
    /\ ErrWrap (ErrURL "missing protocol scheme") "PUT - request creation failed"
       = errors_Wrap err msg
    /\ Response_zero = Response_zero /\ @nil event = [].
Proof.
  apply (verbs_error_is_request_construction Examples.refused
           (SetRetryCount NewHystrixHTTPClient 2) 4 "://localhost" Examples.ok_body
           (Put Examples.refused (SetRetryCount NewHystrixHTTPClient 2) 4
                "://localhost" Examples.ok_body)).
  - simpl. auto.
  - reflexivity.
Defined.

(** X6: each verb sends its own kind of request: every request [do] hands
    to the transport on behalf of a verb carries that verb's method, the URL
    as given and the close-after-use mark, and the first of them carries the
    body as given ([Get] and [Delete] send none).  Of the body of a request
    sent again at a retry nothing is said: the request object is the same,
    and what is left in its reader after an attempt is the library's. *)
Theorem verbs_send_their_own_request
    (w : world) (hhc : hystrixHTTPClient) (fuel : nat) (url : string) (b : bytes) :
  url_Parse w url = None ->
  (Forall (fun q => Method q = "GET"%string /\ URL q = url /\ Close q = true)
          (calls (events (Get w hhc fuel url)))
   /\ first_is {| Method := "GET"; URL := url; ReqBody := None; Close := true |}
               (calls (events (Get w hhc fuel url))))
  /\ (Forall (fun q => Method q = "POST"%string /\ URL q = url /\ Close q = true)
             (calls (events (Post w hhc fuel url b)))
      /\ first_is {| Method := "POST"; URL := url; ReqBody := Some b; Close := true |}
                  (calls (events (Post w hhc fuel url b))))
  /\ (Forall (fun q => Method q = "PUT"%string /\ URL q = url /\ Close q = true)
             (calls (events (Put w hhc fuel url b)))
      /\ first_is {| Method := "PUT"; URL := url; ReqBody := Some b; Close := true |}
                  (calls (events (Put w hhc fuel url b))))
  /\ (Forall (fun q => Method q = "PATCH"%string /\ URL q = url /\ Close q = true)
             (calls (events (Patch w hhc fuel url b)))
      /\ first_is {| Method := "PATCH"; URL := url; ReqBody := Some b; Close := true |}
                  (calls (events (Patch w hhc fuel url b))))
  /\ (Forall (fun q => Method q = "DELETE"%string /\ URL q = url /\ Close q = true)
             (calls (events (Delete w hhc fuel url)))
      /\ first_is {| Method := "DELETE"; URL := url; ReqBody := None; Close := true |}
                  (calls (events (Delete w hhc fuel url)))).
Proof.
  intros Hurl. unfold Get, Post, Put, Patch, Delete, http_NewRequest.
  rewrite Hurl.
  assert (H : forall req,
    Forall (fun q => Method q = Method req /\ URL q = URL req /\ Close q = true)
           (calls (events (do w hhc fuel req)))
    /\ first_is (closed req) (calls (events (do w hhc fuel req)))).
  { intros req. split.
    - apply Forall_forall. intros q Hq. apply do_calls_closed in Hq.
      subst q. repeat split.
    - destruct (calls (events (do w hhc fuel req))) as [|q l] eqn:Hc; simpl;
        [exact I|].
      apply (do_calls_closed w hhc fuel req q). rewrite Hc. left. reflexivity. }
  repeat split;
    match goal with |- context [do w hhc fuel ?req] => apply (H req) end.
Qed.

Lemma verbs_send_their_own_request_witness :
  (Forall (fun q => Method q = "GET"%string /\ URL q = "http://localhost/"%string
                    /\ Close q = true)
          (calls (events (Get Examples.down (SetRetryCount NewHystrixHTTPClient 1) 3
                              "http://localhost/")))
   /\ first_is {| Method := "GET"; URL := "http://localhost/"; ReqBody := None;
                  Close := true |}
               (calls (events (Get Examples.down (SetRetryCount NewHystrixHTTPClient 1)
                                   3 "http://localhost/"))))
  /\ (Forall (fun q => Method q = "POST"%string /\ URL q = "http://localhost/"%string
                       /\ Close q = true)
             (calls (events (Post Examples.down (SetRetryCount NewHystrixHTTPClient 1)
                                  3 "http://localhost/" Examples.ok_body)))
      /\ first_is {| Method := "POST"; URL := "http://localhost/";
                     ReqBody := Some Examples.ok_body; Close := true |}
                  (calls (events (Post Examples.down
                                       (SetRetryCount NewHystrixHTTPClient 1)
                                       3 "http://localhost/" Examples.ok_body)))).
Proof.
  destruct (verbs_send_their_own_request Examples.down
              (SetRetryCount NewHystrixHTTPClient 1) 3 "http://localhost/"
              Examples.ok_body eq_refl) as (HGet & HPost & _).
  split; assumption.
Defined.

(** X7: when attempt [k] is the first that does not fail and it succeeds,
    the [Response] returned is that attempt's: its status, which is below
    500, and its body.  Nothing of what the failed attempts before it left in
    [hr] remains. *)
Theorem do_success_returns_that_attempt
    (w : world) (hhc : hystrixHTTPClient) (req : http_Request) (fuel k : nat)
    (response : http_Response) (rd : Reader) :
  GoInt.in_range (retryCount hhc) ->
  Z.of_nat k <= retryCount hhc ->
  (forall j, 0 <= j < Z.of_nat k -> attempt_verdict w j = Fails) ->
  attempt_verdict w (Z.of_nat k) = Succeeds ->
  transport w (Z.of_nat k) = inr response ->
  Body response = Some rd ->
  (k < fuel)%nat ->
  exists tr,
    do w hhc fuel req
    = Returned {| statusCode := StatusCode response; body := rd_data rd |} None tr
    /\ StatusCode response < http_StatusInternalServerError.
Proof.
  intros [_ Hmax] Hk Hall Hsucc Ht Hb Hfuel.
  rewrite (do_first_success w hhc fuel req k) by (auto; lia).
  rewrite hr_after_attempts_last. simpl (0 + Z.of_nat k).
  unfold attempt_verdict, run_verdict in Hsucc.
  unfold hr_after_attempt, hr_after_run.
  destruct (breaker w (Z.of_nat k)); [|discriminate].
  rewrite Ht, Hb in *. destruct (rd_err rd); [discriminate|].
  destruct (Z.leb_spec http_StatusInternalServerError (StatusCode response));
    [discriminate|].
  eexists. split; [reflexivity|assumption].
Qed.

Lemma do_success_returns_that_attempt_witness :
  exists tr,
    do Scenarios.rejected_then_up (SetRetryCount NewHystrixHTTPClient 3) 3
       Examples.a_request
    = Returned {| statusCode := 200; body := Examples.ok_body |} None tr
    /\ 200 < http_StatusInternalServerError.
Proof.
  apply (do_success_returns_that_attempt Scenarios.rejected_then_up
           (SetRetryCount NewHystrixHTTPClient 3) Examples.a_request 3 1
           {| StatusCode := 200;
              Body := Some {| rd_data := Examples.ok_body; rd_err := None |} |}
           {| rd_data := Examples.ok_body; rd_err := None |}).
  - split; vm_compute; discriminate.
  - simpl. lia.
  - intros j Hj. assert (j = 0) as -> by lia. reflexivity.
  - reflexivity.
  - reflexivity.
  - reflexivity.
  - lia.
Defined.

(** X8: the [Response] returned can mix two attempts.  If attempt [i] is
    answered with a status of 500 or more, the attempts after it bring no
    response, and the last attempt is answered but its body cannot be read to
    the end, then [do] returns the status of attempt [i] together with the
    part of the last attempt's body that was read. *)
Theorem do_mixes_status_and_body
    (w : world) (hhc : hystrixHTTPClient) (req : http_Request) (fuel : nat)
    (i : Z) (response last_response : http_Response) (rd last_rd : Reader)
    (e : error) :
  0 <= i < retryCount hhc ->
  retryCount hhc < GoInt.max_int ->
  (forall j, 0 <= j < i -> attempt_verdict w j = Fails) ->
  breaker w i = Allow ->
  transport w i = inr response ->
  Body response = Some rd ->
  rd_err rd = None ->
  http_StatusInternalServerError <= StatusCode response ->
  (forall j, i < j < retryCount hhc -> no_response w j) ->
  breaker w (retryCount hhc) = Allow ->
  transport w (retryCount hhc) = inr last_response ->
  Body last_response = Some last_rd ->
  rd_err last_rd = Some e ->
  (Z.to_nat (retryCount hhc) + 1 < fuel)%nat ->
  exists tr,
    do w hhc fuel req
    = Returned {| statusCode := StatusCode response; body := rd_data last_rd |}
               None tr.
Proof.
  intros Hi Hmax Hbefore Ha Ht Hb Hr Hs Hbetween HaN HtN HbN HrN Hfuel.
  assert (Hall : forall j, 0 <= j <= retryCount hhc -> attempt_verdict w j = Fails).
  { intros j Hj. unfold attempt_verdict, run_verdict.
    destruct (Z.lt_trichotomy j i) as [Hlt|[->|Hgt]].
    - apply Hbefore. lia.
    - rewrite Ha, Ht, Hb, Hr.
      destruct (Z.leb_spec http_StatusInternalServerError (StatusCode response));
        [reflexivity|lia].
    - destruct (Z.eq_dec j (retryCount hhc)) as [->|Hne].
      + rewrite HaN, HtN, HbN, HrN. reflexivity.
      + destruct (Hbetween j ltac:(lia)) as [[e' ->]|[e' He']]; [reflexivity|].
        rewrite He'. destruct (breaker w j); reflexivity. }
  rewrite (do_exhausted w hhc fuel req (Z.to_nat (retryCount hhc + 1)))
    by (auto; lia).
  eexists. f_equal.
  replace (Z.to_nat (retryCount hhc + 1))
    with (S (Z.to_nat (retryCount hhc))) by lia.
  rewrite hr_after_attempts_last.
  replace (0 + Z.of_nat (Z.to_nat (retryCount hhc))) with (retryCount hhc) by lia.
  replace (Z.to_nat (retryCount hhc))
    with (S (Z.to_nat i) + Z.to_nat (retryCount hhc - i - 1))%nat by lia.
  rewrite hr_after_attempts_app.
  rewrite hr_after_attempts_no_response by (intros j Hj; apply Hbetween; lia).
  rewrite hr_after_attempts_last.
  replace (0 + Z.of_nat (Z.to_nat i)) with i by lia.
  unfold hr_after_attempt, hr_after_run.
  rewrite Ha, Ht, Hb, Hr, HaN, HtN, HbN, HrN. reflexivity.
Qed.

Lemma do_mixes_status_and_body_witness :
  exists tr,
    do Scenarios.down_then_broken_read (SetRetryCount NewHystrixHTTPClient 1) 3
       Examples.a_request
    = Returned {| statusCode := 503; body := [Byte.x6f] |} None tr.
Proof.
  apply (do_mixes_status_and_body Scenarios.down_then_broken_read
           (SetRetryCount NewHystrixHTTPClient 1) Examples.a_request 3 0
           {| StatusCode := 503;
              Body := Some {| rd_data := Examples.oops_body; rd_err := None |} |}
           {| StatusCode := 200;
              Body := Some {| rd_data := [Byte.x6f];
                              rd_err := Some (ErrRead "unexpected EOF") |} |}
           {| rd_data := Examples.oops_body; rd_err := None |}
           {| rd_data := [Byte.x6f]; rd_err := Some (ErrRead "unexpected EOF") |}
           (ErrRead "unexpected EOF")).
  - simpl. lia.
  - unfold GoInt.max_int, GoInt.bits. simpl. lia.
  - intros j Hj. lia.
  - reflexivity.
  - reflexivity.
  - reflexivity.
  - reflexivity.
  - unfold http_StatusInternalServerError. simpl. lia.
  - intros j Hj. simpl in Hj. lia.
  - reflexivity.
  - reflexivity.
  - reflexivity.
  - reflexivity.
  - simpl. lia.
Defined.



(** X10: retries that are not needed change nothing: when attempt [k] is the
    first that does not fail and it succeeds, any two retry counts of at
    least [k] give the same outcome, event for event. *)
Theorem do_same_outcome_with_more_retries
    (w : world) (hhc : hystrixHTTPClient) (req : http_Request) (fuel k : nat)
    (N N' : Z) :
  Z.of_nat k <= N <= GoInt.max_int ->
  Z.of_nat k <= N' <= GoInt.max_int ->
  (forall j, 0 <= j < Z.of_nat k -> attempt_verdict w j = Fails) ->
  attempt_verdict w (Z.of_nat k) = Succeeds ->
  (k < fuel)%nat ->
  do w (SetRetryCount hhc N) fuel req = do w (SetRetryCount hhc N') fuel req
  /\ exists r tr, do w (SetRetryCount hhc N) fuel req = Returned r None tr.
Proof.
  intros HN HN' Hall Hsucc Hfuel.
  rewrite (do_first_success w (SetRetryCount hhc N) fuel req k);
    simpl retryCount; auto; try lia.
  rewrite (do_first_success w (SetRetryCount hhc N') fuel req k);
    simpl retryCount; auto; try lia.
  split; [|do 2 eexists; reflexivity].
  rewrite (failures_events_ext w (SetRetryCount hhc N) (SetRetryCount hhc N'))
    by reflexivity.
  reflexivity.
Qed.

Lemma do_same_outcome_with_more_retries_witness :
  do (Examples.up_from 2) (SetRetryCount NewHystrixHTTPClient 2) 4 Examples.a_request
  = do (Examples.up_from 2) (SetRetryCount NewHystrixHTTPClient 7) 4 Examples.a_request
  /\ exists r tr,
       do (Examples.up_from 2) (SetRetryCount NewHystrixHTTPClient 2) 4
          Examples.a_request
       = Returned r None tr.
Proof.
  apply (do_same_outcome_with_more_retries (Examples.up_from 2)
           NewHystrixHTTPClient Examples.a_request 4 2 2 7).
  - unfold GoInt.max_int, GoInt.bits. simpl. lia.
  - unfold GoInt.max_int, GoInt.bits. simpl. lia.
  - intros j Hj. unfold attempt_verdict, run_verdict. simpl.
    destruct (Z.ltb_spec j 2); [reflexivity|lia].
  - reflexivity.
  - lia.
Defined.

(** X11: every client a caller can have, the one [NewHystrixHTTPClient]
    makes and whatever [SetRetryCount] and [SetRetrier] make of it, enters
    [hystrix.Do] under the one command name "default", at every attempt of
    every call. *)
Theorem configured_clients_share_the_default_command
    (w : world) (hhc : hystrixHTTPClient) (fuel : nat) (req : http_Request) :
  configured hhc ->
  Forall (eq "default"%string) (breaker_names (events (do w hhc fuel req))).
Proof.
  intros Hc. apply Forall_forall. intros name Hin.
  rewrite <- (configured_name hhc Hc). symmetry.
  assert (He : events (do w hhc fuel req)
               = trace (final (loop w hhc fuel 0 (start req)))).
  { rewrite do_loop. destruct (loop w hhc fuel 0 (start req)); reflexivity. }
  rewrite He in Hin. revert name Hin. apply loop_breaker_names.
  simpl. intros name [].
Qed.

Lemma configured_clients_share_the_default_command_witness :
  Forall (eq "default"%string)
         (breaker_names (events
            (do Examples.refused
                (SetRetrier (SetRetryCount NewHystrixHTTPClient 2)
                            (Scenarios.linear_backoff 50))
                4 Examples.a_request))).
Proof.
  apply (configured_clients_share_the_default_command Examples.refused
           (SetRetrier (SetRetryCount NewHystrixHTTPClient 2)
                       (Scenarios.linear_backoff 50))
           4 Examples.a_request).
  apply configured_retrier, configured_count, configured_new.
Defined.

Lemma zseq_last (n : nat) : forall i,
  zseq i (S n) = zseq i n ++ [i + Z.of_nat n].
Proof.
  induction n as [|n IH]; intros i.
  - simpl. rewrite Z.add_0_r. reflexivity.
  - change (zseq i (S (S n))) with (i :: zseq (i + 1) (S n)).
    rewrite IH. simpl. do 3 f_equal. lia.
Qed.

Lemma failures_events_calls_allowed_count (w : world) (hhc : hystrixHTTPClient)
    (n : nat) : forall i req,
  List.length (calls (failures_events w hhc n i req))
  = List.length (filter (allowed w) (zseq i n)).
Proof.
  induction n as [|n IH]; intros i req; simpl; [reflexivity|].
  unfold attempt_events, allowed. destruct (breaker w i); simpl; rewrite IH;
    reflexivity.
Qed.

(** X12: the transport is called in exactly the attempts the breaker lets
    through: at any point of a call, the number of calls of the transport is
    the number of attempts made so far that the breaker did not reject.  A
    rejected attempt never reaches the transport. *)
Theorem do_calls_transport_only_when_allowed
    (w : world) (hhc : hystrixHTTPClient) (fuel : nat) (req : http_Request) :
  0 <= retryCount hhc < GoInt.max_int ->
  List.length (calls (events (do w hhc fuel req)))
  = List.length (filter (allowed w)
                        (zseq 0 (breaker_uses (events (do w hhc fuel req))))).
Proof.
  intros HN.
  destruct (do_events w hhc fuel req) as (m & rest & -> & _ & _ & Hrest); try lia.
  simpl. rewrite calls_app, breaker_uses_app, length_app,
    failures_events_breaker_uses, failures_events_calls_allowed_count.
  destruct Hrest as [->|[_ ->]].
  - simpl. rewrite !Nat.add_0_r. reflexivity.
  - unfold attempt_events.
    replace (m + breaker_uses
                   (EvHystrixDo (hystrixCommandName hhc)
                    :: match breaker w (Z.of_nat m) with
                       | Allow => [EvClientDo (closed req)]
                       | Reject _ => []
                       end))%nat with (S m)
      by (destruct (breaker w (Z.of_nat m)); simpl; lia).
    rewrite zseq_last, filter_app, length_app. f_equal.
    simpl. unfold allowed. destruct (breaker w (Z.of_nat m)); reflexivity.
Qed.

Lemma do_calls_transport_only_when_allowed_witness :
  List.length (calls (events
     (do Scenarios.rejected_then_up (SetRetryCount NewHystrixHTTPClient 3) 5
         Examples.a_request)))
  = List.length (filter (allowed Scenarios.rejected_then_up)
      (zseq 0 (breaker_uses (events
         (do Scenarios.rejected_then_up (SetRetryCount NewHystrixHTTPClient 3) 5
             Examples.a_request))))).
Proof.
  apply (do_calls_transport_only_when_allowed Scenarios.rejected_then_up
           (SetRetryCount NewHystrixHTTPClient 3) 5 Examples.a_request).
  unfold GoInt.max_int, GoInt.bits. simpl. lia.
Defined.
